(** * bs4_parser_pep: the four mode handlers of [src/main.py]

    A shallow embedding of [whats_new], [latest_versions], [download] and
    [pep], together with the parts of the libraries they call: Python
    strings, the fragment of [re] the three patterns of the file use, the
    navigable tree of BeautifulSoup, [collections.Counter], and the part of
    the file system [download] touches.

    Conventions.
    - Text is [string], a sequence of bytes; [\d] is the ASCII digit class.
    - A handler is a computation in the monad [M]: it threads a [World]
      (requests issued, log records, directories, files) and either
      returns a value or raises a Python exception.
    - What [constants.py] defines ([MAIN_DOC_URL], [PEP_URL], [BASE_DIR],
      [EXPECTED_STATUS]) and what the environment decides ([urljoin], the
      [lxml] parser) are variables of the section [Handlers]. *)

From Stdlib Require Import List String Ascii Bool Arith ZArith Lia Sorted.
Import ListNotations.

Local Open Scope string_scope.
Local Open Scope list_scope.

(* A lemma of a section depends on the parameters its statement names. *)
Set Default Proof Using "Type".

(* ================================================================== *)
(** * Python strings *)
(* ================================================================== *)

Module PyStr.

Definition chars : string -> list ascii := list_ascii_of_string.
Definition str : list ascii -> string := string_of_list_ascii.

(** The line feed, Python's ["\n"]. *)
Definition LF : ascii := ascii_of_nat 10.
Definition nl : string := String LF EmptyString.

(** [s.replace(old, new)] for one-character [old] and [new]. *)
Fixpoint replace_char (old new : ascii) (s : string) : string :=
  match s with
  | EmptyString => EmptyString
  | String c s' =>
      String (if Ascii.eqb c old then new else c) (replace_char old new s')
  end.

(** [s.startswith(p)], on character lists; returns what follows [p]. *)
Fixpoint strip_prefix (p s : list ascii) : option (list ascii) :=
  match p, s with
  | [], _ => Some s
  | _ :: _, [] => None
  | a :: p', b :: s' => if Ascii.eqb a b then strip_prefix p' s' else None
  end.

(** [needle in s]. *)
Fixpoint contains_chars (needle s : list ascii) : bool :=
  match strip_prefix needle s with
  | Some _ => true
  | None => match s with
            | [] => false
            | _ :: s' => contains_chars needle s'
            end
  end.

Definition contains (needle s : string) : bool :=
  contains_chars (chars needle) (chars s).

(** [s.split(sep)[-1]] for a one-character [sep]: the text after the last
    occurrence of [sep], the whole of [s] when there is none. [acc] is
    the segment being read. *)
Fixpoint last_segment_from (sep : ascii) (acc : string) (s : string) : string :=
  match s with
  | EmptyString => acc
  | String c s' =>
      if Ascii.eqb c sep then last_segment_from sep EmptyString s'
      else last_segment_from sep (acc ++ String c EmptyString) s'
  end.

Definition last_segment (sep : ascii) (s : string) : string :=
  last_segment_from sep EmptyString s.

(** [sep.join(l)]. *)
Fixpoint join (sep : string) (l : list string) : string :=
  match l with
  | [] => EmptyString
  | [x] => x
  | x :: l' => x ++ sep ++ join sep l'
  end.

(** ASCII white space, as [str.split()] with no argument sees it. *)
Definition is_space (c : ascii) : bool :=
  let n := nat_of_ascii c in
  ((n =? 32) || ((9 <=? n) && (n <=? 13)))%nat.

(** [s.split()]: the maximal runs of non-blank characters. [cur] is the
    run being read, reversed. *)
Fixpoint split_ws_from (cur : list ascii) (s : list ascii) : list string :=
  let flush := match cur with [] => [] | _ => [str (rev cur)] end in
  match s with
  | [] => flush
  | c :: s' =>
      if is_space c then flush ++ split_ws_from [] s'
      else split_ws_from (c :: cur) s'
  end.

Definition split_ws (s : string) : list string := split_ws_from [] (chars s).

Definition is_digit (c : ascii) : bool :=
  let n := nat_of_ascii c in ((48 <=? n) && (n <=? 57))%nat.

Definition not_newline (c : ascii) : bool := negb (Ascii.eqb c LF).

Fixpoint mem (x : string) (l : list string) : bool :=
  match l with
  | [] => false
  | y :: l' => String.eqb x y || mem x l'
  end.

End PyStr.

(* ================================================================== *)
(** * The fragment of [re] the handlers use *)
(* ================================================================== *)

Module Re.
Import PyStr.

(** Patterns. Repetition is only ever applied to a character class in
    [main.py] ([\d+], [.*], [.+]), which is what [Star] and [Plus]
    offer; both are greedy. *)
Inductive regex : Type :=
| Lit (s : string)              (* literal text *)
| Class (p : ascii -> bool)     (* one character of a class *)
| Star (p : ascii -> bool)      (* p*  *)
| Plus (p : ascii -> bool)      (* p+  *)
| Cat (r1 r2 : regex)           (* r1 r2 *)
| Group (r : regex)             (* ( r ), capturing *)
| Bos                           (* ^ *)
| Eos.                          (* $ *)

(** One way of matching at a position: the texts captured by the groups,
    in the order the groups open, and the input left. *)
Definition attempt : Type := (list (list ascii) * list ascii)%type.

(** All ways [p*] can match at the head of [s], longest first. *)
Fixpoint star (p : ascii -> bool) (s : list ascii) : list attempt :=
  match s with
  | c :: s' => if p c then star p s' ++ [([], s)] else [([], s)]
  | [] => [([], [])]
  end.

(** The text a match consumed, given the input before and after it. *)
Definition consumed (s rest : list ascii) : list ascii :=
  firstn (List.length s - List.length rest) s.

(** All ways [r] can match at the head of [s], in the order a
    backtracking matcher tries them. [bos] tells whether [s] starts at
    the beginning of the subject. *)
Fixpoint rmatch (r : regex) (bos : bool) (s : list ascii) : list attempt :=
  match r with
  | Lit l =>
      match strip_prefix (chars l) s with
      | Some rest => [([], rest)]
      | None => []
      end
  | Class p =>
      match s with
      | c :: rest => if p c then [([], rest)] else []
      | [] => []
      end
  | Star p => star p s
  | Plus p =>
      match s with
      | c :: rest => if p c then star p rest else []
      | [] => []
      end
  | Cat r1 r2 =>
      flat_map
        (fun a1 : attempt =>
           map (fun a2 : attempt => (fst a1 ++ fst a2, snd a2))
               (rmatch r2 (bos && (List.length (snd a1) =? List.length s)%nat) (snd a1)))
        (rmatch r1 bos s)
  | Group r' =>
      map (fun a : attempt => (consumed s (snd a) :: fst a, snd a))
          (rmatch r' bos s)
  | Bos => if bos then [([], s)] else []
  | Eos =>
      match s with
      | [] => [([], s)]
      | [c] => if Ascii.eqb c LF then [([], s)] else []
      | _ => []
      end
  end.

(** [re.search]: the first attempt at the leftmost position that has
    one. *)
Fixpoint search_from (r : regex) (bos : bool) (s : list ascii) : option attempt :=
  match rmatch r bos s with
  | a :: _ => Some a
  | [] =>
      match s with
      | [] => None
      | _ :: s' => search_from r false s'
      end
  end.

(** [re.search(pattern, text)], giving [match.groups()]. *)
Definition search (r : regex) (text : string) : option (list string) :=
  match search_from r true (chars text) with
  | Some a => Some (map str (fst a))
  | None => None
  end.

Definition found (r : regex) (text : string) : bool :=
  match search r text with Some _ => true | None => false end.

(** What the patterns mean: [matches r bos w rest groups] says that [r]
    matches the text [w] when [rest] follows it, capturing [groups]. *)
Inductive matches : regex -> bool -> list ascii -> list ascii -> list (list ascii) -> Prop :=
| M_Lit l bos rest :
    matches (Lit l) bos (chars l) rest []
| M_Class p bos c rest :
    p c = true ->
    matches (Class p) bos [c] rest []
| M_Star p bos w rest :
    forallb p w = true ->
    matches (Star p) bos w rest []
| M_Plus p bos w rest :
    w <> [] ->
    forallb p w = true ->
    matches (Plus p) bos w rest []
| M_Cat r1 r2 bos w1 w2 rest g1 g2 :
    matches r1 bos w1 (w2 ++ rest) g1 ->
    matches r2 (bos && (List.length w1 =? 0)%nat) w2 rest g2 ->
    matches (Cat r1 r2) bos (w1 ++ w2) rest (g1 ++ g2)
| M_Group r bos w rest g :
    matches r bos w rest g ->
    matches (Group r) bos w rest (w :: g)
| M_Bos rest :
    matches Bos true [] rest []
| M_Eos bos rest :
    rest = [] \/ rest = [LF] ->
    matches Eos bos [] rest [].

End Re.

(* ================================================================== *)
(** * The navigable tree of BeautifulSoup *)
(* ================================================================== *)

Module Bs4.
Import PyStr.

(** A parsed document: text nodes and elements. An attribute value is
    kept as it is written in the page. *)
#[warnings="-register-all"]
Inductive Node : Type :=
| NavigableString (s : string)
| Element (name : string) (attrs : list (string * string)) (contents : list Node).

(** One step up from a node: the element it is a child of, with the
    siblings before it (nearest first) and after it. *)
Record Frame : Type := mkFrame {
  before : list Node;
  parent_name : string;
  parent_attrs : list (string * string);
  after : list Node
}.

(** A [Tag] (or any page element) as bs4 hands it out: the node and the
    way up to the root, so that [.parent] and the siblings are there. *)
Record Tag : Type := mkTag {
  node : Node;
  above : list Frame
}.

(** What [attrs={...}] may hold for a key: a string or a compiled
    pattern. *)
Inductive matcher : Type :=
| MStr (s : string)
| MRe (r : Re.regex).

Definition attrs_filter : Type := list (string * matcher).

(** The descendants of a node, in document order. *)
Fixpoint descendants_of (n : Node) (ctx : list Frame) : list Tag :=
  match n with
  | NavigableString _ => []
  | Element nm ats cs =>
      (fix go (left right : list Node) : list Tag :=
         match right with
         | [] => []
         | c :: right' =>
             let here := mkFrame left nm ats right' :: ctx in
             mkTag c here :: descendants_of c here ++ go (c :: left) right'
         end) [] cs
  end.

Definition descendants (t : Tag) : list Tag :=
  descendants_of (node t) (above t).

Fixpoint get_attr (ats : list (string * string)) (key : string) : option string :=
  match ats with
  | [] => None
  | (k, v) :: ats' => if String.eqb k key then Some v else get_attr ats' key
  end.

(** Attributes bs4 splits into a list of values on every tag. *)
Definition multi_valued (key : string) : bool :=
  mem key ["class"; "accesskey"; "dropzone"].

Definition match_value (m : matcher) (v : string) : bool :=
  match m with
  | MStr s => String.eqb v s
  | MRe r => Re.found r v
  end.

(** One entry of [attrs]: a list-valued attribute matches through any of
    its values or through the values glued with a space. *)
Definition matches_attr (ats : list (string * string)) (f : string * matcher) : bool :=
  match get_attr ats (fst f) with
  | None => false
  | Some v =>
      if multi_valued (fst f) then
        existsb (match_value (snd f)) (split_ws v)
        || match_value (snd f) (join " " (split_ws v))
      else match_value (snd f) v
  end.

Definition is_tag (name : string) (attrs : attrs_filter) (n : Node) : bool :=
  match n with
  | NavigableString _ => false
  | Element nm ats _ => String.eqb nm name && forallb (matches_attr ats) attrs
  end.

(** [tag.find_all(name, attrs=attrs)]. *)
Definition find_all (t : Tag) (name : string) (attrs : attrs_filter) : list Tag :=
  filter (fun d => is_tag name attrs (node d)) (descendants t).

(** [tag.find(name, attrs=attrs)], [None] when nothing matches. *)
Definition find (t : Tag) (name : string) (attrs : attrs_filter) : option Tag :=
  hd_error (find_all t name attrs).

(** [tag.text]: the text nodes below, concatenated. *)
Fixpoint text_of (n : Node) : string :=
  match n with
  | NavigableString s => s
  | Element _ _ cs =>
      (fix go (cs : list Node) : string :=
         match cs with
         | [] => EmptyString
         | c :: cs' => (text_of c ++ go cs')%string
         end) cs
  end.

Definition text (t : Tag) : string := text_of (node t).

(** [tag.string]: the text of a tag with a single string below it,
    through single children; [None] otherwise. *)
Fixpoint string_of (n : Node) : option string :=
  match n with
  | NavigableString s => Some s
  | Element _ _ [c] => string_of c
  | Element _ _ _ => None
  end.

(** [tag.find_all(name, string=pattern)]: the tags called [name] whose
    [.string] the pattern is found in. *)
Definition find_all_string (t : Tag) (name : string) (pattern : Re.regex) : list Tag :=
  filter
    (fun d => is_tag name [] (node d)
              && match string_of (node d) with
                 | Some s => Re.found pattern s
                 | None => false
                 end)
    (descendants t).

(** [tag.find(string=s)]: the first text node equal to [s]. *)
Definition find_string (t : Tag) (s : string) : option Tag :=
  hd_error
    (filter
       (fun d => match node d with
                 | NavigableString x => String.eqb x s
                 | Element _ _ _ => false
                 end)
       (descendants t)).

(** [element.parent]. *)
Definition parent (t : Tag) : option Tag :=
  match above t with
  | [] => None
  | f :: ctx =>
      Some (mkTag (Element (parent_name f) (parent_attrs f)
                           (rev (before f) ++ node t :: after f))
                  ctx)
  end.

(** [element.find_next_sibling(name)]. *)
Definition find_next_sibling (t : Tag) (name : string) : option Tag :=
  match above t with
  | [] => None
  | f :: ctx =>
      (fix go (left right : list Node) : option Tag :=
         match right with
         | [] => None
         | c :: right' =>
             if is_tag name [] c
             then Some (mkTag c (mkFrame left (parent_name f) (parent_attrs f) right' :: ctx))
             else go (c :: left) right'
         end) (node t :: before f) (after f)
  end.

(** The value of [tag[key]] when the tag has the attribute. *)
Definition attr (t : Tag) (key : string) : option string :=
  match node t with
  | NavigableString _ => None
  | Element _ ats _ => get_attr ats key
  end.

End Bs4.

(* ================================================================== *)
(** * Exceptions, the world and the monad of the handlers *)
(* ================================================================== *)

Module Py.
Import PyStr.

(** The exceptions the handlers can leave through. *)
Inductive exn : Type :=
| ParserFindTagException (tag : string) (attrs : Bs4.attrs_filter)
| KeyError (key : string)
| AttributeError
| ValueError
| Exception (msg : string)
| FileNotFoundError
| FileExistsError
| NotADirectoryError
| IsADirectoryError.

Inductive result (A : Type) : Type :=
| Ok (a : A)
| Raise (e : exn).

Arguments Ok {A} a.
Arguments Raise {A} e.

Definition rbind {A B : Type} (r : result A) (k : A -> result B) : result B :=
  match r with
  | Ok a => k a
  | Raise e => Raise e
  end.

(** A path, as its components below the root. *)
Definition path : Type := list string.

Fixpoint path_eqb (p q : path) : bool :=
  match p, q with
  | [], [] => true
  | a :: p', b :: q' => String.eqb a b && path_eqb p' q'
  | _, _ => false
  end.

(** [p / name] of pathlib, for a [name] holding no separator: an empty
    name and ["."] add nothing. *)
Definition path_div (p : path) (name : string) : path :=
  if String.eqb name "" || String.eqb name "." then p else p ++ [name].

Definition path_str (p : path) : string := ("/" ++ join "/" p)%string.

Inductive LogRecord : Type :=
| LogInfo (msg : string)
| LogException (msg : string).

(** What a run can change: the GET requests issued through the session,
    the log, and the directories and files of the disk. *)
Record World : Type := mkWorld {
  requests : list string;
  log : list LogRecord;
  dirs : list path;
  files : list (path * list Byte.byte)
}.

Definition M (A : Type) : Type := World -> result A * World.

Definition ret {A : Type} (a : A) : M A := fun w => (Ok a, w).

Definition raise {A : Type} (e : exn) : M A := fun w => (Raise e, w).

Definition bind {A B : Type} (m : M A) (k : A -> M B) : M B :=
  fun w =>
    match m w with
    | (Ok a, w') => k a w'
    | (Raise e, w') => (Raise e, w')
    end.

Definition lift {A : Type} (r : result A) : M A := fun w => (r, w).

(** [for x in items: acc = body(acc, x)], the exception of an iteration
    ending the loop. ([tqdm] around the items of a loop only shows the
    progress.) *)
Fixpoint for_each {A S : Type} (items : list A) (body : S -> A -> M S) (acc : S) : M S :=
  match items with
  | [] => ret acc
  | x :: items' => bind (body acc x) (for_each items' body)
  end.

Definition logging_info (msg : string) : M unit :=
  fun w => (Ok tt, mkWorld (requests w) (log w ++ [LogInfo msg]) (dirs w) (files w)).

(** ** The disk *)

Definition is_dir (w : World) (p : path) : bool :=
  match p with
  | [] => true
  | _ => existsb (path_eqb p) (dirs w)
  end.

Definition is_file (w : World) (p : path) : bool :=
  existsb (fun f => path_eqb p (fst f)) (files w).

Fixpoint read_file (fs : list (path * list Byte.byte)) (p : path) : option (list Byte.byte) :=
  match fs with
  | [] => None
  | (q, data) :: fs' => if path_eqb p q then Some data else read_file fs' p
  end.

(** [p.mkdir(exist_ok=True)]. *)
Definition mkdir_exist_ok (p : path) : M unit :=
  fun w =>
    if is_dir w p then (Ok tt, w)
    else if is_file w p then (Raise FileExistsError, w)
    else if is_dir w (removelast p)
    then (Ok tt, mkWorld (requests w) (log w) (p :: dirs w) (files w))
    else if is_file w (removelast p) then (Raise NotADirectoryError, w)
    else (Raise FileNotFoundError, w).

(** [with open(p, "wb") as file: file.write(data)]. *)
Definition write_bytes (p : path) (data : list Byte.byte) : M unit :=
  fun w =>
    if is_dir w p then (Raise IsADirectoryError, w)
    else if is_dir w (removelast p)
    then (Ok tt,
          mkWorld (requests w) (log w) (dirs w)
                  ((p, data) :: filter (fun f => negb (path_eqb p (fst f))) (files w)))
    else if is_file w (removelast p) then (Raise NotADirectoryError, w)
    else (Raise FileNotFoundError, w).

(** ** The session *)

Record Response : Type := mkResponse {
  text : string;
  content : list Byte.byte
}.

(** What a GET through the session gives for each URL; [None] stands for
    a [RequestException]. *)
Definition Session : Type := string -> option Response.

(** Modelled from the spec: [utils.get_response], which is not under
    [src/]. It issues one GET; on a transport failure it logs the error
    and gives no response instead of raising. *)
Definition get_response (session : Session) (url : string) : M (option Response) :=
  fun w =>
    match session url with
    | Some response =>
        (Ok (Some response),
         mkWorld (requests w ++ [url]) (log w) (dirs w) (files w))
    | None =>
        (Ok None,
         mkWorld (requests w ++ [url]) (log w ++ [LogException url]) (dirs w) (files w))
    end.

(** Modelled from the spec: [utils.find_tag], which is not under [src/].
    The first descendant that matches, or an exception naming the tag and
    the attributes sought. *)
Definition find_tag (soup : Bs4.Tag) (tag : string) (attrs : Bs4.attrs_filter) : result Bs4.Tag :=
  match Bs4.find soup tag attrs with
  | Some searched_tag => Ok searched_tag
  | None => Raise (ParserFindTagException tag attrs)
  end.

(** [tag[key]]. *)
Definition getitem (t : Bs4.Tag) (key : string) : result string :=
  match Bs4.attr t key with
  | Some v => Ok v
  | None => Raise (KeyError key)
  end.

(** [x.text] where [x] may be [None]. *)
Definition text_or_raise (x : option Bs4.Tag) : result string :=
  match x with
  | Some t => Ok (Bs4.text t)
  | None => Raise AttributeError
  end.

(** ** [collections.Counter] *)

(** A counter keeps its keys in the order they were first counted. *)
Fixpoint counter_add (c : list (string * Z)) (x : string) : list (string * Z) :=
  match c with
  | [] => [(x, 1%Z)]
  | (k, n) :: c' =>
      if String.eqb k x then (k, (n + 1)%Z) :: c' else (k, n) :: counter_add c' x
  end.

Definition Counter (l : list string) : list (string * Z) :=
  fold_left counter_add l [].

End Py.

Declare Scope py_scope.
Notation "x <- m ;; k" := (Py.bind m (fun x => k))
  (at level 61, m at next level, right associativity) : py_scope.
Notation "m ;;; k" := (Py.bind m (fun _ => k))
  (at level 61, right associativity) : py_scope.
Notation "x <~ r ;; k" := (Py.rbind r (fun x => k))
  (at level 61, r at next level, right associativity) : py_scope.

(* ================================================================== *)
(** * The handlers of [main.py] *)
(* ================================================================== *)

Import PyStr Py.
Import Bs4 (Tag, MStr, MRe).
Local Open Scope py_scope.

(** The rows of the what's-new and latest-versions tables. *)
Definition Row : Type := (string * string * string)%type.

(** The second field of a row of the PEP table: text in the header, a
    number below it. *)
Inductive value : Type :=
| VStr (s : string)
| VInt (n : Z).

Definition PepRow : Type := (string * value)%type.

(** What a handler hands over to [control_output]. *)
Inductive Results : Type :=
| Rows (rows : list Row)
| PepRows (rows : list PepRow).

(** The command line once parsed: the mode, the two options, and the
    text the log shows for it. *)
Record Args : Type := mkArgs {
  mode : string;
  clear_cache : bool;
  output : option string;
  shown : string
}.

(** The pattern of line 69: the word Python, a blank, the group [version]
    (a digit, a dot, one digit or more), a blank, and between brackets the
    group [status] (any run of characters of one line, the longest that
    leaves a closing bracket). *)
Definition version_pattern : Re.regex :=
  Re.Cat (Re.Lit "Python ")
    (Re.Cat (Re.Group (Re.Cat (Re.Class is_digit)
                         (Re.Cat (Re.Lit ".") (Re.Plus is_digit))))
       (Re.Cat (Re.Lit " (")
          (Re.Cat (Re.Group (Re.Star not_newline)) (Re.Lit ")")))).

(** The pattern of line 92: one character or more, then pdf-a4.zip at the
    end. *)
Definition pdf_a4_pattern : Re.regex :=
  Re.Cat (Re.Plus not_newline) (Re.Cat (Re.Lit "pdf-a4.zip") Re.Eos).

(** The pattern of line 123: digits from the beginning to the end. *)
Definition number_pattern : Re.regex :=
  Re.Cat Re.Bos (Re.Cat (Re.Plus is_digit) Re.Eos).

Definition whats_new_header : Row :=
  ("Ссылка на статью", "Заголовок", "Редактор, Автор").

Definition latest_versions_header : Row :=
  ("Ссылка на документацию", "Версия", "Статус").

Definition pep_header : PepRow := ("Status", VStr "Quantity").

Definition status_mismatch (status : string) : string :=
  ("Статус не совпал:" ++ nl ++ "Статус в карточке: " ++ status ++ nl)%string.

Definition archive_saved (archive_path : path) : string :=
  ("Архив был загружен и сохранён: " ++ path_str archive_path)%string.

(* ================================================================== *)
(** * Sample pages and sessions *)
(* ================================================================== *)

(** Concrete sites to run the handlers on. A page is given by its markup
    and by the tree the parser makes of it; [lxml] looks the markup up. *)
Module Example.
Import Bs4.

Definition MAIN_DOC_URL : string := "https://docs.python.org/3/".
Definition PEP_URL : string := "https://peps.python.org/".
Definition BASE_DIR : path := ["srv"; "bs4_parser_pep"; "src"].

Definition EXPECTED_STATUS : list (string * list string) :=
  [("A", ["Active"; "Accepted"]);
   ("D", ["Deferred"]);
   ("F", ["Final"]);
   ("P", ["Provisional"]);
   ("R", ["Rejected"]);
   ("S", ["Superseded"]);
   ("W", ["Withdrawn"]);
   ("", ["Draft"; "Active"])].

(** What precedes the last slash of an address, slash included. *)
Fixpoint dirname_from (acc cur : string) (s : string) : string :=
  match s with
  | EmptyString => acc
  | String c s' =>
      if Ascii.eqb c "/"
      then dirname_from (acc ++ cur ++ "/") EmptyString s'
      else dirname_from acc (cur ++ String c EmptyString) s'
  end.

(** Enough of [urljoin] for the addresses below: an absolute reference
    stands for itself, a relative one replaces what follows the last
    slash of the base. *)
Definition urljoin (base url : string) : string :=
  if String.prefix "https://" url then url
  else (dirname_from EmptyString EmptyString base ++ url)%string.

Definition html (body : list Node) : Node :=
  Element "[document]" [] [Element "html" [] [Element "body" [] body]].

Definition parse (pages : list (string * Node)) (markup : string) : Node :=
  match List.find (fun page => String.eqb (fst page) markup) pages with
  | Some page => snd page
  | None => html []
  end.

Definition serve (site : list (string * string)) : Session :=
  fun url =>
    match List.find (fun entry => String.eqb (fst entry) url) site with
    | Some entry => Some (mkResponse (snd entry) [])
    | None => None
    end.

Definition link (href label : string) : Node :=
  Element "a" [("href", href)] [NavigableString label].

(** ** The PEP index and four cards *)

Definition card (status : string) : Node :=
  html [Element "dl" [("class", "rfc2822 field-list simple")]
          [Element "dt" [("class", "field-odd")]
             [NavigableString "Author"; Element "span" [("class", "colon")] [NavigableString ":"]];
           NavigableString nl;
           Element "dd" [("class", "field-odd")] [NavigableString "Guido van Rossum"];
           NavigableString nl;
           Element "dt" [("class", "field-even")]
             [NavigableString "Status"; Element "span" [("class", "colon")] [NavigableString ":"]];
           NavigableString nl;
           Element "dd" [("class", "field-even")]
             [Element "abbr" [("title", "see PEP 1")] [NavigableString status]];
           NavigableString nl]].

(** A card whose field list has no Status label. *)
Definition card_without_status : Node :=
  html [Element "dl" [("class", "rfc2822 field-list simple")]
          [Element "dt" [("class", "field-odd")] [NavigableString "Author"];
           Element "dd" [("class", "field-odd")] [NavigableString "Tim Peters"]]].

Definition index_row (kind number href title : string) : Node :=
  Element "tr" []
    [Element "td" [] [NavigableString kind];
     Element "td" [] [link href number];
     Element "td" [] [link href title]].

Definition pep_index : Node :=
  html [Element "section" [("id", "numerical-index")]
          [Element "table" [("class", "pep-zero-table docutils")]
             [Element "thead" [] [Element "tr" [] [Element "th" [] [NavigableString "PEP"]]];
              Element "tbody" []
                [index_row "PA" "1" "pep-0001/" "PEP Purpose and Guidelines";
                 index_row "PA" "8" "pep-0008/" "Style Guide for Python Code";
                 index_row "IF" "20" "pep-0020/" "The Zen of Python"]]]].

Definition pep_pages : list (string * Node) :=
  [("<section id='numerical-index'>1 8 20</section>", pep_index);
   ("<dl><dt>Status<dd>Active</dl>", card "Active");
   ("<dl><dt>Status<dd>Final</dl>", card "Final");
   ("<dl><dt>Status<dd>April Fool!</dl>", card "April Fool!");
   ("<dl><dt>Author<dd>Tim Peters</dl>", card_without_status)].

(** Cards with the statuses Active, Final and Final. *)
Definition pep_session : Session :=
  serve [("https://peps.python.org/", "<section id='numerical-index'>1 8 20</section>");
         ("https://peps.python.org/pep-0001/", "<dl><dt>Status<dd>Active</dl>");
         ("https://peps.python.org/pep-0008/", "<dl><dt>Status<dd>Final</dl>");
         ("https://peps.python.org/pep-0020/", "<dl><dt>Status<dd>Final</dl>")].



(** Only the index answers. *)
Definition pep_session_no_card : Session :=
  serve [("https://peps.python.org/", "<section id='numerical-index'>1 8 20</section>")].

(** ** The what's-new overview and its articles *)

Definition toc_entry (href label : string) : Node :=
  Element "li" [("class", "toctree-l1")]
    [link href label;
     Element "ul" [] [Element "li" [("class", "toctree-l2")] [link href "Summary"]]].

Definition whats_new_overview : Node :=
  html [Element "section" [("id", "what-s-new-in-python")]
          [Element "h1" [] [NavigableString "What's New in Python"];
           Element "div" [("class", "toctree-wrapper compound")]
             [Element "ul" []
                [toc_entry "3.12.html" "What's New In Python 3.12";
                 toc_entry "3.11.html" "What's New In Python 3.11";
                 toc_entry "3.10.html" "What's New In Python 3.10"]]]].

Definition article (title editor : string) : Node :=
  html [Element "h1" [] [NavigableString title];
        Element "dl" [("class", "field-list simple")]
          [Element "dt" [] [NavigableString "Editor"];
           NavigableString nl;
           Element "dd" [] [NavigableString editor]]].

(** An article with no heading. *)
Definition article_without_title : Node :=
  html [Element "dl" [] [Element "dt" [] [NavigableString "Editor"]]].

Definition whats_new_pages : list (string * Node) :=
  [("<section id='what-s-new-in-python'>3.12 3.11 3.10</section>", whats_new_overview);
   ("<h1>What's New In Python 3.12</h1>", article "What's New In Python 3.12" "Adam Turner");
   ("<h1>What's New In Python 3.10</h1>", article "What's New In Python 3.10" "Pablo Galindo Salgado");
   ("<dl><dt>Editor</dl>", article_without_title)].

(** The article on 3.11 cannot be fetched. *)
Definition whats_new_session : Session :=
  serve [("https://docs.python.org/3/whatsnew/",
          "<section id='what-s-new-in-python'>3.12 3.11 3.10</section>");
         ("https://docs.python.org/3/whatsnew/3.12.html", "<h1>What's New In Python 3.12</h1>");
         ("https://docs.python.org/3/whatsnew/3.10.html", "<h1>What's New In Python 3.10</h1>")].


(** ** The main page *)






(** ** The downloads page and the archive *)

Definition downloads_page : Node :=
  html [Element "table" [("class", "docutils")]
          [Element "tr" []
             [Element "td" [] [NavigableString "PDF (A4 paper size)"];
              Element "td" [] [link "archives/archive-3.12.pdf-a4.zip" "Download"];
              Element "td" [] [link "archives/archive-3.12.pdf-a4.tar.bz2" "Download"]]]].

Definition downloads_pages : list (string * Node) :=
  [("<table class='docutils'>pdf-a4.zip</table>", downloads_page)].

Definition archive_bytes : list Byte.byte :=
  [Byte.x50; Byte.x4b; Byte.x03; Byte.x04; Byte.x00; Byte.xff].

Definition downloads_session : Session :=
  fun url =>
    if String.eqb url "https://docs.python.org/3/download.html"
    then Some (mkResponse "<table class='docutils'>pdf-a4.zip</table>" [])
    else if String.eqb url "https://docs.python.org/3/archives/archive-3.12.pdf-a4.zip"
    then Some (mkResponse EmptyString archive_bytes)
    else None.

(** The archive cannot be fetched. *)
Definition downloads_session_no_archive : Session :=
  serve [("https://docs.python.org/3/download.html",
          "<table class='docutils'>pdf-a4.zip</table>")].

(** A disk with the base directory and nothing below it. *)
Definition fresh : World :=
  mkWorld [] [] [["srv"]; ["srv"; "bs4_parser_pep"]; BASE_DIR] [].

End Example.

Section Handlers.

(** [constants.py] is not under [src/]: its values are parameters. *)
Variable MAIN_DOC_URL : string.
Variable PEP_URL : string.
Variable BASE_DIR : path.
Variable EXPECTED_STATUS : list (string * list string).

(** [urllib.parse.urljoin], and the [lxml] parser behind
    [BeautifulSoup(markup, features="lxml")]. *)
Variable urljoin : string -> string -> string.
Variable lxml : string -> Bs4.Node.

(** [outputs.control_output], which is not under [src/]. *)
Variable control_output : Results -> Args -> M unit.

Definition BeautifulSoup (markup : string) : Tag := Bs4.mkTag (lxml markup) [].

(** ** [whats_new] *)

Definition whats_new_url : string := urljoin MAIN_DOC_URL "whatsnew/".

(** Lines 33-34: the address of the article a section links to. *)
Definition version_link_of (section : Tag) : result string :=
  version_a_tag <~ find_tag section "a" [] ;;
  href <~ getitem version_a_tag "href" ;;
  Ok (urljoin whats_new_url href).

(** Lines 38-44: the row read off a fetched article. *)
Definition article_row (version_link : string) (response : Response) : result Row :=
  let soup := BeautifulSoup (text response) in
  h1 <~ find_tag soup "h1" [] ;;
  dl <~ find_tag soup "dl" [] ;;
  let dl_text := replace_char LF " " (Bs4.text dl) in
  Ok (version_link, Bs4.text h1, dl_text).

(** Lines 33-44: one iteration of the loop. *)
Definition whats_new_step (session : Session) (result : list Row) (section : Tag)
  : M (list Row) :=
  version_link <- lift (version_link_of section) ;;
  response <- get_response session version_link ;;
  match response with
  | None => ret result
  | Some response =>
      row <- lift (article_row version_link response) ;;
      ret (result ++ [row])
  end.

(** Lines 25-30: the sections of the overview page, one per article. *)
Definition sections_by_python_of (response : Response) : result (list Tag) :=
  let soup := BeautifulSoup (text response) in
  main_div <~ find_tag soup "section" [("id", MStr "what-s-new-in-python")] ;;
  div_with_ul <~ find_tag main_div "div" [("class", MStr "toctree-wrapper")] ;;
  Ok (Bs4.find_all div_with_ul "li" [("class", MStr "toctree-l1")]).

Definition whats_new (session : Session) : M (option (list Row)) :=
  response <- get_response session whats_new_url ;;
  match response with
  | None => ret None
  | Some response =>
      sections_by_python <- lift (sections_by_python_of response) ;;
      result <- for_each sections_by_python (whats_new_step session) [whats_new_header] ;;
      ret (Some result)
  end.

(** ** [latest_versions] *)

(** Lines 61-66: the links of the first list that mentions "All versions";
    the [else] of the loop raises. *)
Fixpoint all_versions_links (ul_tags : list Tag) : result (list Tag) :=
  match ul_tags with
  | [] => Raise (Exception "Ничего не нашлось")
  | ul :: ul_tags' =>
      if contains "All versions" (Bs4.text ul)
      then Ok (Bs4.find_all ul "a" [])
      else all_versions_links ul_tags'
  end.

(** Lines 71-79: the row of one link. *)
Definition version_row (a_tag : Tag) : result Row :=
  link <~ getitem a_tag "href" ;;
  match Re.search version_pattern (Bs4.text a_tag) with
  | Some [version; status] => Ok (link, version, status)
  | Some _ => Raise ValueError
  | None => Ok (link, Bs4.text a_tag, EmptyString)
  end.

Definition latest_versions_step (results : list Row) (a_tag : Tag) : M (list Row) :=
  row <- lift (version_row a_tag) ;;
  ret (results ++ [row]).

(** Lines 56-60: the lists of the sidebar. *)
Definition ul_tags_of (response : Response) : result (list Tag) :=
  let soup := BeautifulSoup (text response) in
  sidebar <~ find_tag soup "div" [("class", MStr "sphinxsidebarwrapper")] ;;
  Ok (Bs4.find_all sidebar "ul" []).

Definition latest_versions (session : Session) : M (option (list Row)) :=
  response <- get_response session MAIN_DOC_URL ;;
  match response with
  | None => ret None
  | Some response =>
      ul_tags <- lift (ul_tags_of response) ;;
      a_tags <- lift (all_versions_links ul_tags) ;;
      results <- for_each a_tags latest_versions_step [latest_versions_header] ;;
      ret (Some results)
  end.

(** ** [download] *)

Definition downloads_url : string := urljoin MAIN_DOC_URL "download.html".

Definition downloads_dir : path := path_div BASE_DIR "downloads".

(** Lines 90-95: the address of the archive, read off the downloads page. *)
Definition archive_url_of (response : Response) : result string :=
  let soup := BeautifulSoup (text response) in
  table_tag <~ find_tag soup "table" [("class", MStr "docutils")] ;;
  pdf_a4_tag <~ find_tag table_tag "a" [("href", MRe pdf_a4_pattern)] ;;
  pdf_a4_link <~ getitem pdf_a4_tag "href" ;;
  Ok (urljoin downloads_url pdf_a4_link).

Definition download (session : Session) : M (option (list Row)) :=
  response <- get_response session downloads_url ;;
  match response with
  | None => ret None
  | Some response =>
      archive_url <- lift (archive_url_of response) ;;
      let filename := last_segment "/" archive_url in
      mkdir_exist_ok downloads_dir ;;;
      let archive_path := path_div downloads_dir filename in
      response <- get_response session archive_url ;;
      match response with
      | None => ret None
      | Some response =>
          write_bytes archive_path (content response) ;;;
          logging_info (archive_saved archive_path) ;;;
          ret None
      end
  end.

(** ** [pep] *)

(** Lines 126-127: the address of the card a cell links to. *)
Definition pep_card_url_of (tag : Tag) : result string :=
  a_tag <~ find_tag tag "a" [] ;;
  href <~ getitem a_tag "href" ;;
  Ok (urljoin PEP_URL href).

(** Lines 131-134: the status read off a fetched card. *)
Definition status_of_card (response : Response) : result string :=
  let soup := BeautifulSoup (text response) in
  dl_tag <~ find_tag soup "dl" [("class", MStr "rfc2822 field-list simple")] ;;
  status_name <~ match Bs4.find_string dl_tag "Status" with
                 | Some found => Ok (Bs4.parent found)
                 | None => Raise AttributeError
                 end ;;
  match status_name with
  | Some status_name => text_or_raise (Bs4.find_next_sibling status_name "dd")
  | None => Raise AttributeError
  end.

(** Lines 126-135: one iteration of the first loop. *)
Definition pep_step (session : Session) (results : list string) (tag : Tag)
  : M (list string) :=
  pep_card_url <- lift (pep_card_url_of tag) ;;
  response <- get_response session pep_card_url ;;
  match response with
  | None => ret results
  | Some response =>
      status_pep_card <- lift (status_of_card response) ;;
      ret (results ++ [status_pep_card])
  end.

(** Lines 142-143. *)
Definition expected_statuses : list string := List.concat (map snd EXPECTED_STATUS).

(** Lines 142-150: one iteration of the second loop, on the table and the
    total so far. *)
Definition tally_step (acc : list PepRow * Z) (item : string * Z)
  : M (list PepRow * Z) :=
  let resulting_table := fst acc in
  let total := snd acc in
  let status := fst item in
  let count := snd item in
  if negb (mem status expected_statuses)
  then logging_info (status_mismatch status) ;;; ret (resulting_table, total)
  else ret (resulting_table ++ [(status, VInt count)], (total + count)%Z).

(** Lines 137-153: the table made of the statuses collected. *)
Definition pep_table (results : list string) : M (list PepRow) :=
  acc <- for_each (Counter results) tally_step ([pep_header], 0%Z) ;;
  ret (fst acc ++ [("Total", VInt (snd acc))]).

(** Lines 119-123: the cells of the numerical index that hold a number. *)
Definition table_tag_of (response : Response) : result (list Tag) :=
  let soup := BeautifulSoup (text response) in
  table_index <~ find_tag soup "section" [("id", MStr "numerical-index")] ;;
  tbody_tag <~ find_tag table_index "tbody" [] ;;
  Ok (Bs4.find_all_string tbody_tag "td" number_pattern).

Definition pep (session : Session) : M (option (list PepRow)) :=
  response <- get_response session PEP_URL ;;
  match response with
  | None => ret None
  | Some response =>
      table_tag <- lift (table_tag_of response) ;;
      results <- for_each table_tag (pep_step session) [] ;;
      resulting_table <- pep_table results ;;
      ret (Some resulting_table)
  end.

(** ** [main] *)

Definition as_results {A : Type} (wrap : list A -> Results)
    (handler : Session -> M (option (list A))) (session : Session)
  : M (option Results) :=
  results <- handler session ;;
  ret (option_map wrap results).

Definition MODE_TO_FUNCTION : list (string * (Session -> M (option Results))) :=
  [("whats-new", as_results Rows whats_new);
   ("latest-versions", as_results Rows latest_versions);
   ("download", as_results Rows download);
   ("pep", as_results PepRows pep)].

(** [MODE_TO_FUNCTION[parser_mode]]. *)
Fixpoint handler_of (table : list (string * (Session -> M (option Results))))
    (parser_mode : string) : result (Session -> M (option Results)) :=
  match table with
  | [] => Raise (KeyError parser_mode)
  | (key, handler) :: table' =>
      if String.eqb key parser_mode then Ok handler else handler_of table' parser_mode
  end.

(** Lines 165-182, from the parsed arguments on; [session] is the cached
    session, emptied first when [--clear-cache] is given. Setting up the
    log has no effect on what is modelled. No exception is caught. *)
Definition main (args : Args) (session : Session) : M unit :=
  logging_info "Парсер запущен!" ;;;
  logging_info ("Аргументы командной строки: " ++ shown args) ;;;
  let parser_mode := mode args in
  handler <- lift (handler_of MODE_TO_FUNCTION parser_mode) ;;
  results <- handler session ;;
  match results with
  | Some results => control_output results args
  | None => ret tt
  end ;;;
  logging_info "Парсер завершил работу.".

(** ** Vocabulary of the statements *)

(** The two crawling loops ([whats_new], [pep]) have one shape: resolve the
    link of the item, fetch it, skip the item when there is no response,
    otherwise extract and append. [fetch_step] is that shape; [visit] is
    what an iteration amounts to as a function of the item alone: an
    exception, nothing to append, or the value to append. *)
Definition fetch_step {X : Type} (link_of : Tag -> result string)
    (extract : string -> Response -> result X)
    (session : Session) (acc : list X) (item : Tag) : M (list X) :=
  link <- lift (link_of item) ;;
  response <- get_response session link ;;
  match response with
  | None => ret acc
  | Some response =>
      x <- lift (extract link response) ;;
      ret (acc ++ [x])
  end.

Definition visit {X : Type} (link_of : Tag -> result string)
    (extract : string -> Response -> result X)
    (session : Session) (item : Tag) : result (option X) :=
  link <~ link_of item ;;
  match session link with
  | None => Ok None
  | Some response => x <~ extract link response ;; Ok (Some x)
  end.

(** What an iteration appends. *)
Definition kept {X : Type} (o : result (option X)) : list X :=
  match o with
  | Ok (Some x) => [x]
  | _ => []
  end.

(** An iteration that does not raise. *)
Definition passes {X : Type} (o : result (option X)) : Prop :=
  exists v, o = Ok v.

Definition article_of (session : Session) (section : Tag) : result (option Row) :=
  visit version_link_of article_row session section.

Definition card_status_of (session : Session) (tag : Tag) : result (option string) :=
  visit pep_card_url_of (fun _ => status_of_card) session tag.

(** The rows of the PEP table between the header and the total: the
    entries of the tally whose status is expected. *)
Definition accepted (c : list (string * Z)) : list (string * Z) :=
  filter (fun item => mem (fst item) expected_statuses) c.

Definition rejected (c : list (string * Z)) : list (string * Z) :=
  filter (fun item => negb (mem (fst item) expected_statuses)) c.

Definition status_row (item : string * Z) : PepRow := (fst item, VInt (snd item)).

Definition sum_counts (c : list (string * Z)) : Z :=
  fold_right Z.add 0%Z (map snd c).




(** The shape of the group [version]: a digit, a dot, one digit or
    more. *)
Definition version_shape (v : list ascii) : bool :=
  match v with
  | d :: dot :: ds =>
      is_digit d && Ascii.eqb dot "." && negb (List.length ds =? 0)%nat
      && forallb is_digit ds
  | _ => false
  end.

(** [text] holds, after [pre] and before [post], the word Python, a
    blank, [version], a blank and [status] between brackets, where
    [version] has the shape the pattern asks for and [status] holds no
    line feed. On character lists, then on strings. *)
Definition labelled_chars (text pre version status post : list ascii) : Prop :=
  text = pre ++ chars "Python " ++ version ++ chars " (" ++ status ++ chars ")" ++ post
  /\ version_shape version = true
  /\ forallb not_newline status = true.

Definition labelled (text pre version status post : string) : Prop :=
  text = (pre ++ "Python " ++ version ++ " (" ++ status ++ ")" ++ post)%string
  /\ version_shape (chars version) = true
  /\ forallb not_newline (chars status) = true.

(** [version] and [status] are what the pattern reads in [text]: when
    [text] is labelled somewhere, they are the labels of its leftmost
    labelling, with the longest status there; when it is labelled nowhere,
    [version] is the text itself and [status] is empty. *)
Definition reads_as (text version status : string) : Prop :=
  (forall pre v s post,
     labelled text pre v s post ->
     exists pre0 post0,
       labelled text pre0 version status post0
       /\ String.length pre0 <= String.length pre
       /\ (String.length pre0 = String.length pre ->
           v = version /\ String.length s <= String.length status))
  /\ ((forall pre v s post, ~ labelled text pre v s post) ->
      version = text /\ status = EmptyString).

(** What the two crawling loops return, as a function of the items
    alone. *)
Fixpoint crawl {X : Type} (outcome : Tag -> result (option X)) (items : list Tag)
    (acc : list X) : result (list X) :=
  match items with
  | [] => Ok acc
  | item :: items' =>
      match outcome item with
      | Ok o => crawl outcome items' (acc ++ kept (Ok o))
      | Raise e => Raise e
      end
  end.

(** The rows [whats_new] appends for the sections given. *)
Definition articles (session : Session) (sections : list Tag) : list Row :=
  flat_map (fun section => kept (article_of session section)) sections.

(** A text that holds no separator [sep]. *)
Definition free_of (sep : ascii) (s : string) : bool :=
  forallb (fun c => negb (Ascii.eqb c sep)) (chars s).

(** An attempt that consumed more than another. *)
Definition shorter (a a' : Re.attempt) : Prop :=
  List.length (snd a) < List.length (snd a').

(** Attempts in the order greedy repetition tries them: each leaves more
    of the input than the one before. *)
Definition ascending (attempts : list Re.attempt) : Prop :=
  StronglySorted shorter attempts.

(** A pattern with at most one attempt at a position. *)
Definition single (r : Re.regex) : Prop :=
  forall bos s, List.length (Re.rmatch r bos s) <= 1.

(** The statuses [pep] collects from the cards of the cells, in the order
    of the cells: one for each card that was fetched. *)
Definition statuses_of (session : Session) (table_tag : list Tag) : list string :=
  flat_map (fun tag => kept (card_status_of session tag)) table_tag.

(** The rows between the header and the total, for the statuses
    collected. *)
Definition status_rows (statuses : list string) : list PepRow :=
  map status_row (accepted (Counter statuses)).

Definition total_row (total : Z) : PepRow := ("Total", VInt total).



(** ** Vocabulary of the further statements *)

(** The world after one GET of [url] through [session]: one more
    request, and one more log record when there is no response. *)
Definition fetched (session : Session) (url : string) (w : World) : World :=
  mkWorld (requests w ++ [url])
          (log w ++ match session url with
                    | Some _ => []
                    | None => [LogException url]
                    end)
          (dirs w) (files w).

(** The addresses the session gives no response for. *)
Definition unanswered (session : Session) (links : list string) : list string :=
  filter (fun link => match session link with
                      | Some _ => false
                      | None => true
                      end) links.

(** The rows of the links of [latest_versions], the first link that
    raises ending the loop. *)
Fixpoint rows_of_links (a_tags : list Tag) : result (list Row) :=
  match a_tags with
  | [] => Ok []
  | a_tag :: a_tags' =>
      match version_row a_tag with
      | Ok row =>
          match rows_of_links a_tags' with
          | Ok rows => Ok (row :: rows)
          | Raise e => Raise e
          end
      | Raise e => Raise e
      end
  end.



(* ================================================================== *)
(** * Properties *)
(* ================================================================== *)

(** ** The monad and the loops *)

(** Drops from a goal the parameters of the section it does not mention,
    so that no proof step picks one up. *)
Ltac unused :=
  try clear MAIN_DOC_URL; try clear PEP_URL; try clear BASE_DIR;
  try clear EXPECTED_STATUS; try clear urljoin; try clear lxml;
  try clear control_output.

Lemma whats_new_step_shape session :
  whats_new_step session = fetch_step version_link_of article_row session.
Proof. reflexivity. Qed.

Lemma pep_step_shape session :
  pep_step session = fetch_step pep_card_url_of (fun _ => status_of_card) session.
Proof. reflexivity. Qed.

Section Crawl.
Context {X : Type}.
Variable link_of : Tag -> result string.
Variable extract : string -> Response -> result X.
Variable session : Session.

(** One iteration does what [visit] says, whatever the world. *)
Lemma fetch_step_run acc item w :
  exists w',
    fetch_step link_of extract session acc item w =
    (match visit link_of extract session item with
     | Ok o => Ok (acc ++ kept (Ok o))
     | Raise e => Raise e
     end, w')
    /\ dirs w' = dirs w /\ files w' = files w.
Proof.
  unfold fetch_step, visit, bind, lift, get_response, rbind, ret.
  destruct (link_of item) as [link|e]; [|eauto].
  destruct (session link) as [response|]; simpl.
  - destruct (extract link response) as [x|e]; simpl; eauto.
  - rewrite app_nil_r. eauto.
Qed.

(** A loop none of whose iterations raises appends what they keep, in
    the order of the items. *)
Lemma crawl_passes items : forall acc w,
  Forall (fun item => passes (visit link_of extract session item)) items ->
  exists w',
    for_each items (fetch_step link_of extract session) acc w =
    (Ok (acc ++ flat_map (fun item => kept (visit link_of extract session item)) items), w')
    /\ dirs w' = dirs w /\ files w' = files w.
Proof.
  induction items as [|item items IH]; intros acc w Hall; simpl.
  - rewrite app_nil_r. unfold ret. eauto.
  - inversion Hall as [|? ? [o Ho] Hrest]; subst.
    destruct (fetch_step_run acc item w) as (w1 & Hrun & Hd & Hf).
    unfold bind. rewrite Hrun, Ho.
    destruct (IH (acc ++ kept (Ok o)) w1 Hrest) as (w2 & Hloop & Hd2 & Hf2).
    exists w2. rewrite Hloop, <- app_assoc. repeat split; congruence.
Qed.


(** A loop that ends normally had no iteration raise. *)
Lemma crawl_returns items : forall acc w res w',
  for_each items (fetch_step link_of extract session) acc w = (Ok res, w') ->
  Forall (fun item => passes (visit link_of extract session item)) items
  /\ res = acc ++ flat_map (fun item => kept (visit link_of extract session item)) items.
Proof.
  induction items as [|item items IH]; intros acc w res w' Hrun; simpl in *.
  - unfold ret in Hrun. inversion Hrun; subst. rewrite app_nil_r. auto.
  - destruct (fetch_step_run acc item w) as (w1 & Hstep & _).
    unfold bind in Hrun. rewrite Hstep in Hrun.
    destruct (visit link_of extract session item) as [o|e] eqn:Ho; [|discriminate].
    apply IH in Hrun as [Hall Hres]. split.
    + constructor; [exists o; exact Ho | assumption].
    + rewrite Hres, <- app_assoc. reflexivity.
Qed.
End Crawl.

(** ** The tally *)
















(** The second loop of [pep]: the expected entries of the tally become
    rows and add to the total, the others are logged. *)
Lemma tally_run c : forall tbl tot w,
  for_each c tally_step (tbl, tot) w =
  (Ok (tbl ++ map status_row (accepted c), (tot + sum_counts (accepted c))%Z),
   mkWorld (requests w)
           (log w ++ map (fun item => LogInfo (status_mismatch (fst item))) (rejected c))
           (dirs w) (files w)).
Proof.
  induction c as [|[k n] c IH]; intros tbl tot w; simpl.
  - unfold ret, sum_counts. simpl. rewrite !app_nil_r, Z.add_0_r.
    destruct w; reflexivity.
  - unfold bind, tally_step. simpl.
    destruct (mem k expected_statuses); simpl.
    + unfold ret. rewrite IH, <- app_assoc. simpl.
      unfold sum_counts. simpl. do 2 f_equal. f_equal. lia.
    + unfold logging_info, ret. simpl. rewrite IH. simpl.
      rewrite <- app_assoc. reflexivity.
Qed.

Lemma pep_table_run statuses w :
  pep_table statuses w =
  (Ok (pep_header :: status_rows statuses
         ++ [total_row (sum_counts (accepted (Counter statuses)))]),
   mkWorld (requests w)
           (log w ++ map (fun item => LogInfo (status_mismatch (fst item)))
                         (rejected (Counter statuses)))
           (dirs w) (files w)).
Proof.
  unfold pep_table, bind. rewrite tally_run. unfold ret. simpl. reflexivity.
Qed.

(** [pep] on an index page whose cells all pass. *)
Lemma pep_runs session w response table_tag :
  session PEP_URL = Some response ->
  table_tag_of response = Ok table_tag ->
  Forall (fun tag => passes (card_status_of session tag)) table_tag ->
  exists w',
    pep session w =
    (Ok (Some (pep_header :: status_rows (statuses_of session table_tag)
                 ++ [total_row (sum_counts (accepted (Counter (statuses_of session table_tag))))])),
     w')
    /\ forall item, In item (rejected (Counter (statuses_of session table_tag))) ->
                    In (LogInfo (status_mismatch (fst item))) (log w').
Proof.
  intros Hresp Hcells Hall.
  unfold pep, bind, get_response. rewrite Hresp.
  unfold lift. rewrite Hcells. rewrite pep_step_shape.
  match goal with |- context [for_each _ _ _ ?w1] =>
    destruct (crawl_passes pep_card_url_of (fun _ => status_of_card) session
                table_tag [] w1 Hall) as (w2 & Hloop & _)
  end.
  rewrite Hloop. simpl app. rewrite pep_table_run. unfold ret.
  eexists. split; [reflexivity|].
  intros item Hin. simpl. apply in_or_app. right.
  apply (in_map (fun item => LogInfo (status_mismatch (fst item)))) in Hin. exact Hin.
Qed.

(** Every run of [pep] that returns a table is such a run. *)
Lemma pep_returns session w table w' :
  pep session w = (Ok (Some table), w') ->
  exists response table_tag,
    session PEP_URL = Some response
    /\ table_tag_of response = Ok table_tag
    /\ Forall (fun tag => passes (card_status_of session tag)) table_tag
    /\ table = pep_header :: status_rows (statuses_of session table_tag)
                 ++ [total_row (sum_counts (accepted (Counter (statuses_of session table_tag))))]
    /\ forall item, In item (rejected (Counter (statuses_of session table_tag))) ->
                    In (LogInfo (status_mismatch (fst item))) (log w').
Proof.
  intros Hrun.
  assert (Hrun0 := Hrun).
  unfold pep, bind, get_response in Hrun.
  destruct (session PEP_URL) as [response|] eqn:Hresp; [|discriminate].
  unfold lift in Hrun.
  destruct (table_tag_of response) as [table_tag|e] eqn:Hcells; [|discriminate].
  rewrite pep_step_shape in Hrun.
  match type of Hrun with context [for_each _ _ _ ?w1] =>
    destruct (for_each table_tag
                (fetch_step pep_card_url_of (fun _ => status_of_card) session) [] w1)
      as [[results|e] w2] eqn:Hloop; [|discriminate]
  end.
  apply crawl_returns in Hloop as [Hall _].
  exists response, table_tag. repeat split; auto.
  - destruct (pep_runs session w response table_tag Hresp Hcells Hall) as (w'' & Hrun' & _).
    congruence.
  - destruct (pep_runs session w response table_tag Hresp Hcells Hall) as (w'' & Hrun' & Hlog).
    assert (w'' = w') by congruence. subst. exact Hlog.
Qed.







(** Claim C9. Every table [pep] returns starts with the header row and
    ends with the Total row; and when the index page is fetched and no
    status is collected, because it has no numbered cell or because the
    card of every cell fails to be fetched, [pep] returns the header row
    followed by (Total, 0). *)
Theorem pep_header_first_total_last session w :
  (forall table w',
     pep session w = (Ok (Some table), w') ->
     exists rows total,
       table = ("Status", VStr "Quantity") :: rows ++ [("Total", VInt total)])
  /\ (forall response table_tag,
        session PEP_URL = Some response ->
        table_tag_of response = Ok table_tag ->
        (forall tag, In tag table_tag ->
           exists pep_card_url,
             pep_card_url_of tag = Ok pep_card_url /\ session pep_card_url = None) ->
        exists w',
          pep session w =
          (Ok (Some [("Status", VStr "Quantity"); ("Total", VInt 0)]), w')).
Proof.
  split.
  - intros table w' Hrun.
    apply pep_returns in Hrun as (response & table_tag & _ & _ & _ & Htable & _).
    eauto.
  - intros response table_tag Hresp Hcells Hfail.
    assert (Forall (fun tag => card_status_of session tag = Ok None) table_tag) as Hnone.
    { apply Forall_forall. intros tag Hin.
      destruct (Hfail tag Hin) as (url & Hurl & Hnoresp).
      unfold card_status_of, visit, rbind. rewrite Hurl, Hnoresp. reflexivity. }
    assert (statuses_of session table_tag = []) as Hempty.
    { unfold statuses_of. clear - Hnone.
      induction Hnone as [|tag l Htag _ IH]; simpl; [reflexivity|].
      rewrite Htag, IH. reflexivity. }
    destruct (pep_runs session w response table_tag Hresp Hcells) as (w' & Hrun & _).
    { eapply Forall_impl; [|exact Hnone]. intros tag Htag. exists None. exact Htag. }
    rewrite Hempty in Hrun. exists w'. exact Hrun.
Qed.


(** ** The matcher against the meaning of the patterns *)

Lemma strip_prefix_spec p : forall s rest,
  strip_prefix p s = Some rest <-> s = p ++ rest.
Proof.
  induction p as [|a p IH]; intros s rest; simpl.
  - split; [intros [= ->]; reflexivity | intros ->; reflexivity].
  - destruct s as [|b s]; [split; discriminate|].
    destruct (Ascii.eqb_spec a b) as [->|Hne].
    + rewrite IH. split; [intros ->; reflexivity | intros [= ->]; reflexivity].
    + split; [discriminate | intros [= H _]; congruence].
Qed.

Lemma star_spec p s : forall g rest,
  In (g, rest) (Re.star p s) <->
  g = [] /\ exists w, s = w ++ rest /\ forallb p w = true.
Proof.
  induction s as [|c s IH]; intros g rest; simpl.
  - split.
    + intros [[= <- <-]|[]]. split; [reflexivity|]. exists []. auto.
    + intros (-> & w & Hs & _). symmetry in Hs.
      apply app_eq_nil in Hs as [_ ->]. auto.
  - assert (In (g, rest) [([], c :: s)] <-> g = [] /\ rest = c :: s) as Hlast.
    { simpl. split; [intros [[= <- <-]|[]]; auto | intros [-> ->]; auto]. }
    destruct (p c) eqn:Hpc.
    + rewrite in_app_iff, IH, Hlast. split.
      * intros [(-> & w & -> & Hw)|[-> ->]]; (split; [reflexivity|]).
        -- exists (c :: w). simpl. rewrite Hpc, Hw. auto.
        -- exists []. auto.
      * intros (-> & [|c' w] & Hs & Hw); simpl in *.
        -- right. auto.
        -- injection Hs as <- ->. apply andb_prop in Hw as [_ Hw]. left. eauto.
    + rewrite Hlast. split.
      * intros [-> ->]. split; [reflexivity|]. exists []. auto.
      * intros (-> & [|c' w] & Hs & Hw); simpl in *; [auto|].
        injection Hs as <- ->. rewrite Hpc in Hw. discriminate.
Qed.

Lemma length_rest_eqb (w rest : list ascii) :
  (List.length rest =? List.length (w ++ rest))%nat = (List.length w =? 0)%nat.
Proof.
  rewrite length_app. destruct w; simpl.
  - apply Nat.eqb_refl.
  - apply Nat.eqb_neq. lia.
Qed.

Lemma consumed_app (w rest : list ascii) : Re.consumed (w ++ rest) rest = w.
Proof.
  unfold Re.consumed. rewrite length_app.
  replace (List.length w + List.length rest - List.length rest) with (List.length w + 0) by lia.
  rewrite firstn_app_2. simpl. apply app_nil_r.
Qed.

(** Every attempt of the matcher is a match of the pattern. *)
Lemma rmatch_sound r : forall bos s g rest,
  In (g, rest) (Re.rmatch r bos s) ->
  exists w, s = w ++ rest /\ Re.matches r bos w rest g.
Proof.
  induction r as [l|p|p|p|r1 IH1 r2 IH2|r IH| |]; intros bos s g rest Hin; simpl in Hin.
  - destruct (strip_prefix (chars l) s) as [rest'|] eqn:Hp; [|contradiction].
    destruct Hin as [[= <- <-]|[]]. apply strip_prefix_spec in Hp.
    exists (chars l). split; [assumption|constructor].
  - destruct s as [|c s]; [contradiction|].
    destruct (p c) eqn:Hpc; [|contradiction].
    destruct Hin as [[= <- <-]|[]]. exists [c]. split; [reflexivity|constructor; assumption].
  - apply star_spec in Hin as (-> & w & -> & Hw).
    exists w. split; [reflexivity|constructor; assumption].
  - destruct s as [|c s]; [contradiction|].
    destruct (p c) eqn:Hpc; [|contradiction].
    apply star_spec in Hin as (-> & w & -> & Hw).
    exists (c :: w). split; [reflexivity|].
    constructor; [discriminate|]. simpl. rewrite Hpc, Hw. reflexivity.
  - apply in_flat_map in Hin as ([g1 rest1] & Hin1 & Hin2).
    apply in_map_iff in Hin2 as ([g2 rest2] & [= <- <-] & Hin2). simpl in *.
    apply IH1 in Hin1 as (w1 & -> & Hm1).
    rewrite length_rest_eqb in Hin2.
    apply IH2 in Hin2 as (w2 & -> & Hm2).
    exists (w1 ++ w2). split; [apply app_assoc|]. constructor; assumption.
  - apply in_map_iff in Hin as ([g' rest'] & [= <- <-] & Hin). simpl in *.
    apply IH in Hin as (w & -> & Hm).
    exists w. split; [reflexivity|]. rewrite consumed_app. constructor; assumption.
  - destruct bos; [|contradiction]. destruct Hin as [[= <- <-]|[]].
    exists []. split; [reflexivity|constructor].
  - destruct s as [|c [|c' s]]; try contradiction.
    + destruct Hin as [[= <- <-]|[]]. exists []. split; [reflexivity|constructor; auto].
    + destruct (Ascii.eqb_spec c LF) as [->|]; [|contradiction].
      destruct Hin as [[= <- <-]|[]]. exists []. split; [reflexivity|constructor; auto].
Qed.

(** Every match of the pattern is an attempt of the matcher. *)
Lemma rmatch_complete r bos w rest g :
  Re.matches r bos w rest g -> In (g, rest) (Re.rmatch r bos (w ++ rest)).
Proof.
  induction 1 as [l bos rest|p bos c rest Hpc|p bos w rest Hw|p bos w rest Hne Hw
                 |r1 r2 bos w1 w2 rest g1 g2 _ IH1 _ IH2|r bos w rest g _ IH
                 |rest|bos rest Hrest]; simpl.
  - assert (strip_prefix (chars l) (chars l ++ rest) = Some rest) as ->
        by (apply strip_prefix_spec; reflexivity).
    left. reflexivity.
  - rewrite Hpc. left. reflexivity.
  - apply star_spec. eauto.
  - destruct w as [|c w]; [congruence|]. simpl in *.
    apply andb_prop in Hw as [-> Hw]. apply star_spec. eauto.
  - apply in_flat_map. exists (g1, w2 ++ rest). split.
    + rewrite <- app_assoc. exact IH1.
    + apply in_map_iff. exists (g2, rest). split; [reflexivity|]. simpl.
      rewrite <- app_assoc, length_rest_eqb. exact IH2.
  - apply in_map_iff. exists (g, rest). split; [|exact IH].
    simpl. rewrite consumed_app. reflexivity.
  - left. reflexivity.
  - destruct Hrest as [->| ->]; [left; reflexivity|].
    left. reflexivity.
Qed.


Lemma matches_Lit_inv l bos w rest g :
  Re.matches (Re.Lit l) bos w rest g -> w = chars l /\ g = [].
Proof. inversion 1; subst; auto. Qed.

Lemma matches_Class_inv p bos w rest g :
  Re.matches (Re.Class p) bos w rest g -> exists c, w = [c] /\ p c = true /\ g = [].
Proof. inversion 1; subst; eauto. Qed.

Lemma matches_Star_inv p bos w rest g :
  Re.matches (Re.Star p) bos w rest g -> forallb p w = true /\ g = [].
Proof. inversion 1; subst; auto. Qed.

Lemma matches_Plus_inv p bos w rest g :
  Re.matches (Re.Plus p) bos w rest g -> w <> [] /\ forallb p w = true /\ g = [].
Proof. inversion 1; subst; auto. Qed.

Lemma matches_Cat_inv r1 r2 bos w rest g :
  Re.matches (Re.Cat r1 r2) bos w rest g ->
  exists w1 w2 g1 g2,
    w = w1 ++ w2 /\ g = g1 ++ g2
    /\ Re.matches r1 bos w1 (w2 ++ rest) g1
    /\ Re.matches r2 (bos && (List.length w1 =? 0)%nat) w2 rest g2.
Proof. inversion 1; subst. do 4 eexists. eauto. Qed.

Lemma matches_Group_inv r bos w rest g :
  Re.matches (Re.Group r) bos w rest g ->
  exists g', g = w :: g' /\ Re.matches r bos w rest g'.
Proof. inversion 1; subst; eauto. Qed.

(** What the pattern of [latest_versions] matches, spelled out. *)
Lemma version_pattern_matches bos w rest g :
  Re.matches version_pattern bos w rest g <->
  exists v st,
    g = [v; st]
    /\ w = chars "Python " ++ v ++ chars " (" ++ st ++ chars ")"
    /\ version_shape v = true
    /\ forallb not_newline st = true.
Proof.
  unfold version_pattern. split.
  - intros H.
    apply matches_Cat_inv in H as (w1 & w2 & g1 & g2 & -> & -> & H1 & H).
    apply matches_Lit_inv in H1 as [-> ->].
    apply matches_Cat_inv in H as (wv & w3 & gv & g3 & -> & -> & Hv & H).
    apply matches_Group_inv in Hv as (gv' & -> & Hv).
    apply matches_Cat_inv in Hv as (wd & wv2 & gd & gv2 & -> & -> & Hd & Hv).
    apply matches_Class_inv in Hd as (d & -> & Hd & ->).
    apply matches_Cat_inv in Hv as (wdot & wds & gdot & gds & -> & -> & Hdot & Hds).
    apply matches_Lit_inv in Hdot as [-> ->].
    apply matches_Plus_inv in Hds as (Hne & Hds & ->).
    apply matches_Cat_inv in H as (wo & w4 & go & g4 & -> & -> & Ho & H).
    apply matches_Lit_inv in Ho as [-> ->].
    apply matches_Cat_inv in H as (wst & wc & gst & gc & -> & -> & Hst & Hc).
    apply matches_Group_inv in Hst as (gst' & -> & Hst).
    apply matches_Star_inv in Hst as [Hst ->].
    apply matches_Lit_inv in Hc as [-> ->].
    exists ([d] ++ chars "." ++ wds), wst. repeat split; auto.
    simpl. rewrite Hd, Hds. destruct wds; [congruence|reflexivity].
  - intros (v & st & -> & -> & Hv & Hst).
    destruct v as [|d [|dot ds]]; try discriminate. simpl in Hv.
    apply andb_prop in Hv as [Hv Hds]. apply andb_prop in Hv as [Hv Hne].
    apply andb_prop in Hv as [Hd Hdot]. apply Ascii.eqb_eq in Hdot. subst dot.
    change [d :: "."%char :: ds; st]
      with ([] ++ (((d :: "."%char :: ds) :: ([] ++ ([] ++ [])))
                     ++ ([] ++ ((st :: []) ++ [])))).
    apply (Re.M_Cat (Re.Lit "Python ") _ bos (chars "Python ")).
    { constructor. }
    change (d :: "."%char :: ds) with ([d] ++ (chars "." ++ ds)).
    apply Re.M_Cat.
    { constructor. apply Re.M_Cat; [constructor; assumption|].
      apply Re.M_Cat; [constructor|].
      constructor; [|assumption]. destruct ds; [discriminate|discriminate]. }
    apply Re.M_Cat; [constructor|].
    apply Re.M_Cat; [|constructor].
    constructor. constructor. assumption.
Qed.

(** A run of digits followed by something else is read in one way. *)
Lemma digits_then_other ds : forall ds' c c' (x x' : list ascii),
  forallb is_digit ds = true -> forallb is_digit ds' = true ->
  is_digit c = false -> is_digit c' = false ->
  ds ++ c :: x = ds' ++ c' :: x' ->
  ds = ds' /\ c :: x = c' :: x'.
Proof.
  induction ds as [|a ds IH]; intros [|a' ds'] c c' x x' Hds Hds' Hc Hc' Heq;
    simpl in *.
  - auto.
  - injection Heq as -> _. apply andb_prop in Hds' as [Ha _]. congruence.
  - injection Heq as <- _. apply andb_prop in Hds as [Ha _]. congruence.
  - injection Heq as <- Heq.
    apply andb_prop in Hds as [_ Hds]. apply andb_prop in Hds' as [_ Hds'].
    destruct (IH ds' c c' x x' Hds Hds' Hc Hc' Heq) as [-> Hx]. auto.
Qed.

Lemma app_same_length {A : Type} (a : list A) : forall a' b b',
  List.length a = List.length a' -> a ++ b = a' ++ b' -> a = a' /\ b = b'.
Proof.
  induction a as [|x a IH]; intros [|x' a'] b b' Hlen Heq; simpl in *;
    try discriminate; auto.
  injection Heq as -> Heq. injection Hlen as Hlen.
  destruct (IH a' b b' Hlen Heq) as [-> ->]. auto.
Qed.

(** Two versions of the right shape, each followed by a blank, that
    start the same text are the same. *)
Lemma version_shape_unique v v' (x x' : list ascii) :
  version_shape v = true -> version_shape v' = true ->
  v ++ " "%char :: x = v' ++ " "%char :: x' ->
  v = v' /\ x = x'.
Proof.
  intros Hv Hv' Heq.
  destruct v as [|d [|dot ds]]; try discriminate.
  destruct v' as [|d' [|dot' ds']]; try discriminate.
  simpl in *.
  apply andb_prop in Hv as [Hv Hds]. apply andb_prop in Hv as [Hv _].
  apply andb_prop in Hv as [_ Hdot].
  apply andb_prop in Hv' as [Hv' Hds']. apply andb_prop in Hv' as [Hv' _].
  apply andb_prop in Hv' as [_ Hdot'].
  injection Heq as <- <- Heq.
  destruct (digits_then_other ds ds' " "%char " "%char x x' Hds Hds'
              eq_refl eq_refl Heq) as [-> Hx].
  injection Hx as ->. auto.
Qed.

(** [re.search] finds the first attempt at the leftmost position that
    has one. *)
Lemma search_from_some r : forall s bos a,
  Re.search_from r bos s = Some a ->
  exists pre s',
    s = pre ++ s'
    /\ (exists others, Re.rmatch r (bos && (List.length pre =? 0)%nat) s' = a :: others)
    /\ forall pre' s'',
         s = pre' ++ s'' -> List.length pre' < List.length pre ->
         Re.rmatch r (bos && (List.length pre' =? 0)%nat) s'' = [].
Proof.
  induction s as [|c s IH]; intros bos a Hsearch; simpl in Hsearch.
  - destruct (Re.rmatch r bos []) as [|a0 others] eqn:Hm; [discriminate|].
    injection Hsearch as ->. exists [], []. simpl. rewrite andb_true_r.
    repeat split; eauto. intros; lia.
  - destruct (Re.rmatch r bos (c :: s)) as [|a0 others] eqn:Hm.
    + apply IH in Hsearch as (pre & s' & -> & [others Hhd] & Hfirst).
      exists (c :: pre), s'. simpl in *. rewrite andb_false_r. repeat split; eauto.
      intros [|c' pre'] s'' Heq Hlen; simpl in *.
      * subst s''. rewrite andb_true_r. exact Hm.
      * injection Heq as <- Heq. rewrite andb_false_r.
        apply (Hfirst pre' s'' Heq). lia.
    + injection Hsearch as ->. exists [], (c :: s). simpl. rewrite andb_true_r.
      repeat split; eauto. intros; lia.
Qed.

Lemma search_from_none r : forall s bos,
  Re.search_from r bos s = None ->
  forall pre s', s = pre ++ s' ->
    Re.rmatch r (bos && (List.length pre =? 0)%nat) s' = [].
Proof.
  induction s as [|c s IH]; intros bos Hsearch pre s' Heq; simpl in Hsearch.
  - destruct (Re.rmatch r bos []) as [|a0 others] eqn:Hm; [|discriminate].
    symmetry in Heq. apply app_eq_nil in Heq as [-> ->]. simpl.
    rewrite andb_true_r. exact Hm.
  - destruct (Re.rmatch r bos (c :: s)) as [|a0 others] eqn:Hm; [|discriminate].
    destruct pre as [|c' pre]; simpl in *.
    + subst s'. rewrite andb_true_r. exact Hm.
    + injection Heq as <- Heq. rewrite andb_false_r.
      apply (IH false Hsearch pre s' Heq).
Qed.


(** ** The order of the attempts *)

Lemma StronglySorted_app {A : Type} (R : A -> A -> Prop) l1 : forall l2,
  StronglySorted R l1 -> StronglySorted R l2 ->
  (forall x y, In x l1 -> In y l2 -> R x y) ->
  StronglySorted R (l1 ++ l2).
Proof.
  induction l1 as [|x l1 IH]; intros l2 H1 H2 Hcross; simpl; [assumption|].
  inversion H1 as [|? ? Hs Hall]; subst. constructor.
  - apply IH; auto. intros; apply Hcross; simpl; auto.
  - apply Forall_app. split; [assumption|].
    apply Forall_forall. intros y Hy. apply Hcross; simpl; auto.
Qed.

Lemma StronglySorted_flat_map {A B : Type} (R : B -> B -> Prop) (F : A -> list B) l :
  StronglySorted (fun x y => forall a a', In a (F x) -> In a' (F y) -> R a a') l ->
  (forall x, In x l -> StronglySorted R (F x)) ->
  StronglySorted R (flat_map F l).
Proof.
  induction 1 as [|x l Hs IH Hall]; intros Hblocks; simpl; [constructor|].
  apply StronglySorted_app.
  - apply Hblocks. simpl; auto.
  - apply IH. intros; apply Hblocks; simpl; auto.
  - intros a a' Ha Ha'. apply in_flat_map in Ha' as (y & Hy & Ha').
    rewrite Forall_forall in Hall. exact (Hall y Hy a a' Ha Ha').
Qed.

Lemma StronglySorted_within {A : Type} (R R' : A -> A -> Prop) l :
  StronglySorted R l ->
  (forall x y, In x l -> In y l -> R x y -> R' x y) ->
  StronglySorted R' l.
Proof.
  induction 1 as [|x l Hs IH Hall]; intros Himp; constructor.
  - apply IH. intros; apply Himp; simpl; auto.
  - rewrite Forall_forall in *. intros y Hy. apply Himp; simpl; auto.
Qed.

Lemma ascending_map (f : Re.attempt -> Re.attempt) l :
  (forall a, snd (f a) = snd a) -> ascending l -> ascending (map f l).
Proof.
  intros Hf. induction 1 as [|x l Hs IH Hall]; simpl; constructor; [assumption|].
  rewrite Forall_forall in *. intros y Hy.
  apply in_map_iff in Hy as (y0 & <- & Hy0).
  unfold shorter. rewrite !Hf. exact (Hall y0 Hy0).
Qed.

Lemma ascending_star p s : ascending (Re.star p s).
Proof.
  induction s as [|c s IH]; simpl.
  - repeat constructor.
  - destruct (p c); [|repeat constructor].
    apply StronglySorted_app; [assumption|repeat constructor|].
    intros [g rest] y Hx [<-|[]]. apply star_spec in Hx as (_ & w & -> & _).
    unfold shorter. simpl. rewrite length_app. lia.
Qed.

Lemma single_Lit l : single (Re.Lit l).
Proof.
  intros bos s. simpl. destruct (strip_prefix (chars l) s); simpl; lia.
Qed.

Lemma single_Class p : single (Re.Class p).
Proof.
  intros bos s. simpl. destruct s as [|c s]; simpl; [lia|].
  destruct (p c); simpl; lia.
Qed.

Lemma single_ascending r bos s : single r -> ascending (Re.rmatch r bos s).
Proof.
  intros Hsingle. specialize (Hsingle bos s).
  destruct (Re.rmatch r bos s) as [|x [|y l]].
  - constructor.
  - repeat constructor.
  - exfalso. simpl in Hsingle. lia.
Qed.

(** Concatenation keeps the order when attempts of the first part that
    leave more are continued by attempts that leave more. *)
Lemma ascending_Cat r1 r2 bos s :
  ascending (Re.rmatch r1 bos s) ->
  (forall bos' s', ascending (Re.rmatch r2 bos' s')) ->
  (forall x y, In x (Re.rmatch r1 bos s) -> In y (Re.rmatch r1 bos s) ->
     shorter x y ->
     forall b1 b2 a a',
       In a (Re.rmatch r2 b1 (snd x)) -> In a' (Re.rmatch r2 b2 (snd y)) ->
       shorter a a') ->
  ascending (Re.rmatch (Re.Cat r1 r2) bos s).
Proof.
  intros H1 H2 Hcross. simpl. apply StronglySorted_flat_map.
  - apply (StronglySorted_within shorter); [assumption|].
    intros x y Hx Hy Hxy a a' Ha Ha'.
    apply in_map_iff in Ha as (a0 & <- & Ha0).
    apply in_map_iff in Ha' as (a0' & <- & Ha0').
    exact (Hcross x y Hx Hy Hxy _ _ a0 a0' Ha0 Ha0').
  - intros x _. apply ascending_map; [reflexivity|apply H2].
Qed.

Lemma ascending_Cat_single r1 r2 bos s :
  single r1 ->
  (forall bos' s', ascending (Re.rmatch r2 bos' s')) ->
  ascending (Re.rmatch (Re.Cat r1 r2) bos s).
Proof.
  intros Hsingle H2. apply ascending_Cat; [apply single_ascending; assumption|assumption|].
  intros x y Hx Hy Hxy. specialize (Hsingle bos s).
  destruct (Re.rmatch r1 bos s) as [|z [|z' l]]; simpl in *; try lia; try tauto.
  destruct Hx as [<-|[]]. destruct Hy as [<-|[]]. unfold shorter in Hxy. lia.
Qed.

Lemma ascending_Group r bos s :
  ascending (Re.rmatch r bos s) -> ascending (Re.rmatch (Re.Group r) bos s).
Proof. intros H. simpl. apply ascending_map; [reflexivity|assumption]. Qed.

Lemma ascending_Plus p bos s : ascending (Re.rmatch (Re.Plus p) bos s).
Proof.
  simpl. destruct s as [|c s]; [constructor|].
  destruct (p c); [apply ascending_star|constructor].
Qed.

(** The attempts of the pattern of [latest_versions] come longest
    first. *)
Lemma version_pattern_ascending bos s :
  ascending (Re.rmatch version_pattern bos s).
Proof.
  unfold version_pattern.
  apply ascending_Cat_single; [apply single_Lit|]. clear bos s. intros bos s.
  apply ascending_Cat.
  - apply ascending_Group.
    apply ascending_Cat_single; [apply single_Class|]. intros bos1 s1.
    apply ascending_Cat_single; [apply single_Lit|]. intros bos2 s2.
    apply ascending_Plus.
  - intros bos1 s1.
    apply ascending_Cat_single; [apply single_Lit|]. intros bos2 s2.
    apply ascending_Cat.
    + apply ascending_Group. apply ascending_star.
    + intros bos3 s3. apply single_ascending, single_Lit.
    + intros [gx rx] [gy ry] _ _ Hxy b1 b2 [ga ra] [ga' ra'] Ha Ha'.
      apply rmatch_sound in Ha as (w & Hw & Hm).
      apply rmatch_sound in Ha' as (w' & Hw' & Hm').
      apply matches_Lit_inv in Hm as [-> _]. apply matches_Lit_inv in Hm' as [-> _].
      unfold shorter in *. simpl in *. subst rx ry. simpl in Hxy. lia.
  - (* two versions read at one position, each followed by " (": the same *)
    intros [gx rx] [gy ry] Hx Hy Hxy b1 b2 a a' Ha Ha'. exfalso.
    apply rmatch_sound in Hx as (wx & Hsx & Hmx).
    apply rmatch_sound in Hy as (wy & Hsy & Hmy).
    destruct a as [ga ra]. destruct a' as [ga' ra'].
    apply rmatch_sound in Ha as (wa & Hwa & Hma).
    apply rmatch_sound in Ha' as (wa' & Hwa' & Hma').
    simpl in *.
    apply matches_Cat_inv in Hma as (o & t & ? & ? & -> & _ & Ho & _).
    apply matches_Lit_inv in Ho as [-> _].
    apply matches_Cat_inv in Hma' as (o' & t' & ? & ? & -> & _ & Ho' & _).
    apply matches_Lit_inv in Ho' as [-> _].
    assert (version_shape wx = true /\ version_shape wy = true) as [Hvx Hvy].
    { split.
      - apply matches_Group_inv in Hmx as (? & _ & Hmx).
        apply matches_Cat_inv in Hmx as (wd & w2 & ? & ? & -> & _ & Hd & Hmx).
        apply matches_Class_inv in Hd as (d & -> & Hd & _).
        apply matches_Cat_inv in Hmx as (wdot & wds & ? & ? & -> & _ & Hdot & Hds).
        apply matches_Lit_inv in Hdot as [-> _].
        apply matches_Plus_inv in Hds as (Hne & Hds & _).
        simpl. rewrite Hd, Hds. destruct wds; [congruence|reflexivity].
      - apply matches_Group_inv in Hmy as (? & _ & Hmy).
        apply matches_Cat_inv in Hmy as (wd & w2 & ? & ? & -> & _ & Hd & Hmy).
        apply matches_Class_inv in Hd as (d & -> & Hd & _).
        apply matches_Cat_inv in Hmy as (wdot & wds & ? & ? & -> & _ & Hdot & Hds).
        apply matches_Lit_inv in Hdot as [-> _].
        apply matches_Plus_inv in Hds as (Hne & Hds & _).
        simpl. rewrite Hd, Hds. destruct wds; [congruence|reflexivity]. }
    subst rx ry. rewrite Hsy in Hsx. simpl in Hsx.
    destruct (version_shape_unique wy wx _ _ Hvy Hvx Hsx) as [_ Heq].
    unfold shorter in Hxy. simpl in Hxy.
    apply (f_equal (@List.length ascii)) in Heq. simpl in Heq. lia.
Qed.

(** The first of ascending attempts leaves the least. *)
Lemma ascending_head a others a' :
  ascending (a :: others) -> In a' (a :: others) ->
  List.length (snd a) <= List.length (snd a').
Proof.
  intros Hs [<-|Hin]; [lia|].
  inversion Hs as [|? ? _ Hall]; subst. rewrite Forall_forall in Hall.
  specialize (Hall a' Hin). unfold shorter in Hall. lia.
Qed.


(** ** What [re.search] finds with the pattern of [latest_versions] *)

Lemma labelled_chars_attempt bos v st post :
  version_shape v = true -> forallb not_newline st = true ->
  In ([v; st], post)
     (Re.rmatch version_pattern bos
        (chars "Python " ++ v ++ chars " (" ++ st ++ chars ")" ++ post)).
Proof.
  intros Hv Hst.
  replace (chars "Python " ++ v ++ chars " (" ++ st ++ chars ")" ++ post)
    with ((chars "Python " ++ v ++ chars " (" ++ st ++ chars ")") ++ post)
    by (rewrite <- !app_assoc; reflexivity).
  apply rmatch_complete, version_pattern_matches.
  exists v, st. repeat split; assumption.
Qed.

Lemma version_search_found bos t a :
  Re.search_from version_pattern bos t = Some a ->
  exists pre v st,
    fst a = [v; st]
    /\ labelled_chars t pre v st (snd a)
    /\ forall pre' v' st' post',
         labelled_chars t pre' v' st' post' ->
         List.length pre <= List.length pre'
         /\ (List.length pre = List.length pre' ->
             v' = v /\ List.length st' <= List.length st).
Proof.
  intros Hsearch.
  apply search_from_some in Hsearch as (pre & s' & -> & [others Hhd] & Hfirst).
  destruct a as [g rest].
  assert (In (g, rest) (Re.rmatch version_pattern
                          (bos && (List.length pre =? 0)%nat) s')) as Hin
      by (rewrite Hhd; simpl; auto).
  apply rmatch_sound in Hin as (w & -> & Hm).
  apply version_pattern_matches in Hm as (v & st & -> & -> & Hv & Hst).
  exists pre, v, st. cbn [fst snd]. split; [reflexivity|]. split.
  { split; [|auto]. rewrite <- !app_assoc. reflexivity. }
  intros pre' v' st' post' (Heq & Hv' & Hst').
  assert (List.length pre <= List.length pre') as Hle.
  { destruct (Nat.le_gt_cases (List.length pre) (List.length pre')) as [|Hlt];
      [assumption|exfalso].
    specialize (Hfirst pre' _ Heq Hlt).
    pose proof (labelled_chars_attempt
                  (bos && (List.length pre' =? 0)%nat) v' st' post' Hv' Hst') as Hin.
    rewrite Hfirst in Hin. exact Hin. }
  split; [assumption|]. intros Hlen.
  apply app_same_length in Heq as [<- Heq]; [|assumption].
  pose proof (labelled_chars_attempt
                (bos && (List.length pre =? 0)%nat) v' st' post' Hv' Hst') as Hin.
  rewrite <- Heq, Hhd in Hin.
  pose proof (version_pattern_ascending (bos && (List.length pre =? 0)%nat)
                ((chars "Python " ++ v ++ chars " (" ++ st ++ chars ")") ++ rest))
    as Hasc.
  rewrite Hhd in Hasc. apply (ascending_head _ _ _ Hasc) in Hin. simpl in Hin.
  rewrite <- !app_assoc in Heq. apply app_inv_head in Heq.
  change (chars " (") with [" "%char; "("%char] in Heq. simpl in Heq.
  destruct (version_shape_unique v v' _ _ Hv Hv' Heq) as [<- Htail].
  split; [reflexivity|].
  apply (f_equal (@List.length ascii)) in Htail. simpl in Htail.
  rewrite !length_app in Htail. simpl in Htail. lia.
Qed.

Lemma version_search_not_found bos t :
  Re.search_from version_pattern bos t = None ->
  forall pre v st post, ~ labelled_chars t pre v st post.
Proof.
  intros Hsearch pre v st post (Heq & Hv & Hst).
  pose proof (search_from_none _ _ _ Hsearch pre _ Heq) as Hnone.
  pose proof (labelled_chars_attempt
                (bos && (List.length pre =? 0)%nat) v st post Hv Hst) as Hin.
  rewrite Hnone in Hin. exact Hin.
Qed.

(** *** From character lists to strings *)

Lemma chars_app (a b : string) : chars (a ++ b) = chars a ++ chars b.
Proof. induction a as [|c a IH]; simpl; [reflexivity|]. rewrite IH. reflexivity. Qed.

Lemma str_chars (s : string) : str (chars s) = s.
Proof. apply string_of_list_ascii_of_string. Qed.

Lemma chars_str (l : list ascii) : chars (str l) = l.
Proof. apply list_ascii_of_string_of_list_ascii. Qed.

Lemma chars_inj (a b : string) : chars a = chars b -> a = b.
Proof. intros H. rewrite <- (str_chars a), <- (str_chars b), H. reflexivity. Qed.

Lemma length_chars (s : string) : List.length (chars s) = String.length s.
Proof. induction s as [|c s IH]; simpl; [reflexivity|]. rewrite IH. reflexivity. Qed.

Lemma labelled_to_chars t pre v st post :
  labelled t pre v st post ->
  labelled_chars (chars t) (chars pre) (chars v) (chars st) (chars post).
Proof.
  intros (-> & Hv & Hst). split; [|auto]. rewrite !chars_app. reflexivity.
Qed.

Lemma labelled_of_chars t pre v st post :
  labelled_chars (chars t) pre v st post ->
  labelled t (str pre) (str v) (str st) (str post).
Proof.
  intros (Heq & Hv & Hst). split; [|rewrite !chars_str; auto].
  apply chars_inj. rewrite Heq, !chars_app, !chars_str. reflexivity.
Qed.

(** [re.search] with the pattern of [latest_versions]: two groups that
    read the text, or no match on a text labelled nowhere. *)
Lemma search_version_pattern t :
  match Re.search version_pattern t with
  | Some groups => exists version status,
                     groups = [version; status] /\ reads_as t version status
  | None => forall pre v s post, ~ labelled t pre v s post
  end.
Proof.
  unfold Re.search.
  destruct (Re.search_from version_pattern true (chars t)) as [a|] eqn:Hsearch.
  - apply version_search_found in Hsearch as (pre0 & v0 & st0 & Hg & Hlab & Hbest).
    exists (str v0), (str st0). rewrite Hg. split; [reflexivity|]. split.
    + intros pre v s post Hl. apply labelled_to_chars in Hl.
      destruct (Hbest _ _ _ _ Hl) as [Hle Hsame].
      exists (str pre0), (str (snd a)). split; [apply labelled_of_chars, Hlab|].
      rewrite <- !length_chars, !chars_str. split; [assumption|].
      intros Hlen. destruct (Hsame Hlen) as [Hv Hs]. split; [|assumption].
      apply chars_inj. rewrite chars_str. assumption.
    + intros Hnone. exfalso. apply labelled_of_chars in Hlab. exact (Hnone _ _ _ _ Hlab).
  - intros pre v s post Hl. apply labelled_to_chars in Hl.
    exact (version_search_not_found _ _ Hsearch _ _ _ _ Hl).
Qed.



(** ** [latest_versions] *)

Lemma contains_chars_spec needle s :
  contains_chars needle s = true <-> exists pre post, s = pre ++ needle ++ post.
Proof.
  induction s as [|c s IH]; simpl.
  - destruct (strip_prefix needle []) as [rest|] eqn:Hp.
    + apply strip_prefix_spec in Hp. split; [|reflexivity].
      intros _. exists [], rest. exact Hp.
    + split; [discriminate|]. intros (pre & post & Heq).
      destruct pre; simpl in Heq; [|discriminate].
      apply strip_prefix_spec in Heq. congruence.
  - destruct (strip_prefix needle (c :: s)) as [rest|] eqn:Hp.
    + apply strip_prefix_spec in Hp. split; [|reflexivity].
      intros _. exists [], rest. exact Hp.
    + rewrite IH. split.
      * intros (pre & post & ->). exists (c :: pre), post. reflexivity.
      * intros ([|c' pre] & post & Heq); simpl in Heq.
        -- apply strip_prefix_spec in Heq. congruence.
        -- injection Heq as _ ->. eauto.
Qed.











(** ** [whats_new] *)

(** What a crawling loop returns does not depend on the world it starts
    in. *)
Lemma crawl_result {X : Type} link_of (extract : string -> Response -> result X)
    session items : forall acc w,
  fst (for_each items (fetch_step link_of extract session) acc w) =
  crawl (visit link_of extract session) items acc.
Proof.
  induction items as [|item items IH]; intros acc w; simpl; [reflexivity|].
  destruct (fetch_step_run link_of extract session acc item w) as (w1 & Hrun & _).
  unfold bind. rewrite Hrun.
  destruct (visit link_of extract session item) as [o|e]; [apply IH|reflexivity].
Qed.

Lemma crawl_app {X : Type} (outcome : Tag -> result (option X)) l1 : forall l2 acc,
  crawl outcome (l1 ++ l2) acc =
  match crawl outcome l1 acc with
  | Ok acc' => crawl outcome l2 acc'
  | Raise e => Raise e
  end.
Proof.
  induction l1 as [|item l1 IH]; intros l2 acc; simpl; [reflexivity|].
  destruct (outcome item); [apply IH|reflexivity].
Qed.

Lemma whats_new_runs session w response sections :
  session whats_new_url = Some response ->
  sections_by_python_of response = Ok sections ->
  Forall (fun section => passes (article_of session section)) sections ->
  exists w',
    whats_new session w =
    (Ok (Some (whats_new_header :: articles session sections)), w').
Proof.
  intros Hresp Hsec Hall.
  unfold whats_new, bind, get_response. rewrite Hresp.
  unfold lift. rewrite Hsec, whats_new_step_shape.
  match goal with |- context [for_each _ _ _ ?w1] =>
    destruct (crawl_passes version_link_of article_row session sections
                [whats_new_header] w1 Hall) as (w2 & Hloop & _)
  end.
  rewrite Hloop. unfold ret. eauto.
Qed.



(** Claim C3. When the article of one section of the overview fails to
    be fetched and no other section makes the loop raise, [whats_new]
    returns the header row followed by the rows of the other articles that
    were fetched, in the order of the sections, and nothing for the
    failed one; and whatever the other sections do, the loop ends as it
    would had the failed section not been listed. *)
Theorem whats_new_skips_failed_fetch session w response before failed after version_link :
  session whats_new_url = Some response ->
  sections_by_python_of response = Ok (before ++ failed :: after) ->
  version_link_of failed = Ok version_link ->
  session version_link = None ->
  (Forall (fun section => passes (article_of session section)) (before ++ after) ->
   exists w',
     whats_new session w =
     (Ok (Some (whats_new_header :: articles session before ++ articles session after)),
      w'))
  /\ articles session [failed] = []
  /\ (forall section link article row,
        version_link_of section = Ok link ->
        session link = Some article ->
        article_row link article = Ok row ->
        articles session [section] = [row])
  /\ (forall acc w0,
        fst (for_each (before ++ failed :: after) (whats_new_step session) acc w0) =
        fst (for_each (before ++ after) (whats_new_step session) acc w0)).
Proof.
  intros Hresp Hsec Hlink Hfail.
  assert (article_of session failed = Ok None) as Hfailed.
  { unfold article_of, visit, rbind. rewrite Hlink, Hfail. reflexivity. }
  split; [|split; [|split]].
  - intros Hothers.
    destruct (whats_new_runs session w response (before ++ failed :: after) Hresp Hsec)
      as (w' & Hrun).
    { apply Forall_app in Hothers as [Hb Ha]. apply Forall_app. split; [assumption|].
      constructor; [|assumption]. exists None. exact Hfailed. }
    exists w'. rewrite Hrun. unfold articles.
    rewrite flat_map_app. simpl. rewrite Hfailed. reflexivity.
  - unfold articles. simpl. rewrite Hfailed. reflexivity.
  - intros section link article row Hl Ha Hr. unfold articles, article_of, visit, rbind.
    simpl. rewrite Hl, Ha, Hr. reflexivity.
  - intros acc w0. rewrite whats_new_step_shape, !crawl_result, !crawl_app.
    destruct (crawl (visit version_link_of article_row session) before acc) as [acc'|e];
      [|reflexivity].
    simpl. fold (article_of session failed). rewrite Hfailed. simpl.
    rewrite app_nil_r. reflexivity.
Qed.



(** ** [download] *)

Lemma append_snoc (a : string) c (s : string) :
  ((a ++ String c EmptyString) ++ s)%string = (a ++ String c s)%string.
Proof. induction a as [|x a IH]; simpl; [reflexivity|]. rewrite IH. reflexivity. Qed.

Lemma last_segment_from_free sep s : forall acc,
  free_of sep s = true -> last_segment_from sep acc s = (acc ++ s)%string.
Proof.
  unfold free_of. induction s as [|c s IH]; intros acc Hfree; simpl in *.
  - clear. induction acc as [|x acc IHa]; simpl; [reflexivity|]. f_equal. exact IHa.
  - apply andb_prop in Hfree as [Hc Hfree].
    apply negb_true_iff in Hc. rewrite Hc, IH by assumption. apply append_snoc.
Qed.

(** The last segment is what follows the last separator. *)
Lemma last_segment_after sep pre name :
  free_of sep name = true ->
  last_segment sep (pre ++ String sep name) = name.
Proof.
  intros Hfree. unfold last_segment. generalize EmptyString as acc.
  induction pre as [|c pre IH]; intros acc; simpl.
  - rewrite Ascii.eqb_refl. apply (last_segment_from_free sep name EmptyString Hfree).
  - destruct (Ascii.eqb c sep); apply IH.
Qed.

Lemma path_eqb_eq p : forall q, path_eqb p q = true <-> p = q.
Proof.
  induction p as [|a p IH]; intros [|b q]; simpl; try (split; [discriminate|discriminate]).
  - split; reflexivity.
  - rewrite andb_true_iff, String.eqb_eq, IH. split.
    + intros [-> ->]. reflexivity.
    + intros [= -> ->]. auto.
Qed.

Lemma path_eqb_refl p : path_eqb p p = true.
Proof. apply path_eqb_eq. reflexivity. Qed.

Lemma is_dir_dirs w w' p : dirs w' = dirs w -> is_dir w' p = is_dir w p.
Proof. intros H. unfold is_dir. rewrite H. reflexivity. Qed.

Lemma is_dir_added w w' p q :
  dirs w' = p :: dirs w -> is_dir w' q = path_eqb q p || is_dir w q.
Proof.
  intros H. unfold is_dir. rewrite H. destruct q; simpl; [|reflexivity].
  rewrite orb_true_r. reflexivity.
Qed.

(** A successful [mkdir] leaves the directory there and touches nothing
    else. *)
Lemma mkdir_exist_ok_returns p w w1 :
  mkdir_exist_ok p w = (Ok tt, w1) ->
  is_dir w1 p = true
  /\ files w1 = files w /\ requests w1 = requests w /\ log w1 = log w
  /\ (dirs w1 = dirs w \/ (is_dir w p = false /\ dirs w1 = p :: dirs w)).
Proof.
  unfold mkdir_exist_ok. destruct (is_dir w p) eqn:Hd.
  - intros [= <-]. repeat split; auto.
  - destruct (is_file w p); [discriminate|].
    destruct (is_dir w (removelast p)).
    + intros [= <-]. split; [|simpl; auto 6].
      rewrite (is_dir_added w (mkWorld (requests w) (log w) (p :: dirs w) (files w))
                 p p eq_refl), path_eqb_refl.
      reflexivity.
    + destruct (is_file w (removelast p)); discriminate.
Qed.

Lemma mkdir_exist_ok_runs p w :
  is_dir w (removelast p) = true -> is_file w p = false ->
  exists w1, mkdir_exist_ok p w = (Ok tt, w1).
Proof.
  intros Hparent Hfile. unfold mkdir_exist_ok. rewrite Hfile, Hparent.
  destruct (is_dir w p); eauto.
Qed.


Lemma downloads_dir_parent : removelast downloads_dir = BASE_DIR.
Proof. apply removelast_last. Qed.

Lemma path_div_name p name :
  name <> EmptyString -> name <> "."%string -> path_div p name = p ++ [name].
Proof.
  intros H1 H2. unfold path_div.
  apply String.eqb_neq in H1. apply String.eqb_neq in H2. rewrite H1, H2. reflexivity.
Qed.

Lemma path_longer (p : path) name : path_eqb (p ++ [name]) p = false.
Proof.
  destruct (path_eqb (p ++ [name]) p) eqn:H; [|reflexivity].
  apply path_eqb_eq in H. apply (f_equal (@List.length string)) in H.
  rewrite length_app in H. simpl in H. lia.
Qed.

Lemma write_bytes_returns p data w w1 :
  write_bytes p data w = (Ok tt, w1) ->
  is_dir w p = false
  /\ read_file (files w1) p = Some data
  /\ dirs w1 = dirs w.
Proof.
  unfold write_bytes. destruct (is_dir w p); [discriminate|].
  destruct (is_dir w (removelast p)).
  - intros [= <-]. simpl. rewrite path_eqb_refl. auto.
  - destruct (is_file w (removelast p)); discriminate.
Qed.

(** [download] on a disk where nothing stands in its way. *)
Lemma download_runs session w page archive_url archive :
  session downloads_url = Some page ->
  archive_url_of page = Ok archive_url ->
  session archive_url = Some archive ->
  is_dir w BASE_DIR = true ->
  is_file w downloads_dir = false ->
  last_segment "/" archive_url <> EmptyString ->
  last_segment "/" archive_url <> "."%string ->
  is_dir w (downloads_dir ++ [last_segment "/" archive_url]) = false ->
  exists w', download session w = (Ok None, w').
Proof.
  intros Hpage Hurl Harchive Hbase Hfile Hne Hdot Hfree.
  set (filename := last_segment "/" archive_url) in *.
  unfold download, bind, get_response. rewrite Hpage.
  unfold lift. rewrite Hurl. fold filename.
  set (w1 := mkWorld (requests w ++ [downloads_url]) (log w) (dirs w) (files w)).
  destruct (mkdir_exist_ok_runs downloads_dir w1) as [w2 Hmk].
  { rewrite downloads_dir_parent. exact Hbase. }
  { exact Hfile. }
  rewrite Hmk.
  apply mkdir_exist_ok_returns in Hmk as (Hdir & Hfiles & Hreq & Hlog & Hdirs).
  rewrite Harchive. rewrite (path_div_name downloads_dir filename Hne Hdot).
  unfold write_bytes.
  set (w3 := mkWorld (requests w2 ++ [archive_url]) (log w2) (dirs w2) (files w2)).
  assert (is_dir w3 downloads_dir = true) as Hdir3 by exact Hdir.
  assert (is_dir w3 (downloads_dir ++ [filename]) = false) as Hfree3.
  { destruct Hdirs as [Hsame|[_ Hadded]].
    - rewrite (is_dir_dirs w1 w3) by exact Hsame. exact Hfree.
    - rewrite (is_dir_added w1 w3 downloads_dir _ Hadded), path_longer. exact Hfree. }
  rewrite Hfree3, removelast_last, Hdir3.
  unfold logging_info, ret. simpl. eauto.
Qed.

(** Claim C8. When the downloads page and the archive are both fetched,
    every run of [download] that ends without an exception has written,
    in the downloads directory, a file named by the last segment of the
    address of the archive, holding the bytes of the response, and
    returns no rows; there is such a run on a disk where the base
    directory exists and nothing stands in the way of the downloads
    directory and of the file; the last segment is the text after the
    last slash, so that an address ending in /archive-3.12.pdf-a4.zip
    gives a file named archive-3.12.pdf-a4.zip. *)
Theorem download_writes_archive session w page archive_url archive :
  session downloads_url = Some page ->
  archive_url_of page = Ok archive_url ->
  session archive_url = Some archive ->
  (forall r w',
     download session w = (Ok r, w') ->
     r = None
     /\ read_file (files w') (downloads_dir ++ [last_segment "/" archive_url])
        = Some (content archive)
     /\ is_dir w' downloads_dir = true)
  /\ (is_dir w BASE_DIR = true ->
      is_file w downloads_dir = false ->
      last_segment "/" archive_url <> EmptyString ->
      last_segment "/" archive_url <> "."%string ->
      is_dir w (downloads_dir ++ [last_segment "/" archive_url]) = false ->
      exists w', download session w = (Ok None, w'))
  /\ (forall pre name,
        archive_url = (pre ++ "/" ++ name)%string ->
        free_of "/" name = true ->
        last_segment "/" archive_url = name)
  /\ (forall pre,
        archive_url = (pre ++ "/archive-3.12.pdf-a4.zip")%string ->
        last_segment "/" archive_url = "archive-3.12.pdf-a4.zip"%string).
Proof.
  intros Hpage Hurl Harchive. split; [|split; [|split]].
  - intros r w' Hrun.
    set (filename := last_segment "/" archive_url) in *.
    unfold download, bind, get_response in Hrun. rewrite Hpage in Hrun.
    unfold lift in Hrun. rewrite Hurl in Hrun. fold filename in Hrun.
    set (w1 := mkWorld (requests w ++ [downloads_url]) (log w) (dirs w) (files w)) in *.
    destruct (mkdir_exist_ok downloads_dir w1) as [[[]|e] w2] eqn:Hmk; [|discriminate].
    apply mkdir_exist_ok_returns in Hmk as (Hdir & _).
    rewrite Harchive in Hrun.
    set (w3 := mkWorld (requests w2 ++ [archive_url]) (log w2) (dirs w2) (files w2)) in *.
    destruct (write_bytes (path_div downloads_dir filename) (content archive) w3)
      as [[[]|e] w4] eqn:Hwrite; [|discriminate].
    apply write_bytes_returns in Hwrite as (Hfree & Hread & Hdirs).
    unfold logging_info, ret in Hrun. injection Hrun as <- <-. simpl.
    assert (path_div downloads_dir filename = downloads_dir ++ [filename]) as Hpath.
    { unfold path_div in *.
      destruct (String.eqb filename "" || String.eqb filename "."); [|reflexivity].
      exfalso. change (is_dir w3 downloads_dir) with (is_dir w2 downloads_dir) in Hfree.
      congruence. }
    rewrite Hpath in Hread. split; [reflexivity|]. split; [exact Hread|].
    rewrite (is_dir_dirs w2 _ downloads_dir); [exact Hdir|exact Hdirs].
  - apply (download_runs session w page archive_url archive Hpage Hurl Harchive).
  - intros pre name -> Hname. apply (last_segment_after "/" pre name Hname).
  - intros pre ->. apply (last_segment_after "/" pre "archive-3.12.pdf-a4.zip"). reflexivity.
Qed.

Lemma mkdir_exist_ok_requests p w r w1 :
  mkdir_exist_ok p w = (r, w1) -> requests w1 = requests w.
Proof.
  unfold mkdir_exist_ok.
  destruct (is_dir w p); [intros [= <- <-]; reflexivity|].
  destruct (is_file w p); [intros [= <- <-]; reflexivity|].
  destruct (is_dir w (removelast p)); [intros [= <- <-]; reflexivity|].
  destruct (is_file w (removelast p)); intros [= <- <-]; reflexivity.
Qed.

Lemma write_bytes_frame p data w r w1 :
  write_bytes p data w = (r, w1) ->
  requests w1 = requests w /\ dirs w1 = dirs w /\ log w1 = log w.
Proof.
  unfold write_bytes.
  destruct (is_dir w p); [intros [= <- <-]; auto|].
  destruct (is_dir w (removelast p)); [intros [= <- <-]; auto|].
  destruct (is_file w (removelast p)); intros [= <- <-]; auto.
Qed.

Lemma one_request_is_not_two (l : list string) a b c : l ++ [a] <> l ++ [b; c].
Proof. intros H. apply app_inv_head in H. discriminate. Qed.

(** Claim C10. A run of [download] that issued its second request, the
    one for the archive, has made the downloads directory before it: the
    directory is there when the run ends, added to the disk if it was not
    there; and when that request gets no response, the run returns no
    rows and leaves the files as they were. *)
Theorem download_directory_made_before_fetch session w r w' url :
  download session w = (r, w') ->
  requests w' = requests w ++ [downloads_url; url] ->
  (exists page,
     session downloads_url = Some page /\ archive_url_of page = Ok url)
  /\ is_dir w' downloads_dir = true
  /\ (is_dir w downloads_dir = false -> dirs w' = downloads_dir :: dirs w)
  /\ (session url = None -> r = Ok None /\ files w' = files w).
Proof.
  unfold download, bind, get_response. intros Hrun Hreq.
  destruct (session downloads_url) as [page|] eqn:Hpage.
  2:{ injection Hrun as <- <-. simpl in Hreq.
      exfalso. exact (one_request_is_not_two _ _ _ _ Hreq). }
  unfold lift in Hrun.
  destruct (archive_url_of page) as [archive_url|e] eqn:Hurl.
  2:{ injection Hrun as <- <-. simpl in Hreq.
      exfalso. exact (one_request_is_not_two _ _ _ _ Hreq). }
  set (w1 := mkWorld (requests w ++ [downloads_url]) (log w) (dirs w) (files w)) in *.
  destruct (mkdir_exist_ok downloads_dir w1) as [[[]|e] w2] eqn:Hmk.
  2:{ injection Hrun as <- <-. apply mkdir_exist_ok_requests in Hmk.
      rewrite Hmk in Hreq. simpl in Hreq.
      exfalso. exact (one_request_is_not_two _ _ _ _ Hreq). }
  apply mkdir_exist_ok_returns in Hmk as (Hdir & Hfiles & Hreq2 & Hlog & Hdirs).
  assert (is_dir w downloads_dir = false -> dirs w2 = downloads_dir :: dirs w) as Hnew.
  { intros Hno. destruct Hdirs as [Hsame|[_ Hadded]]; [|exact Hadded].
    rewrite (is_dir_dirs w1 w2 _ Hsame) in Hdir.
    rewrite (is_dir_dirs w w1 _ eq_refl) in Hdir. congruence. }
  assert (forall w3 : World,
             requests w3 = requests w2 ++ [archive_url] ->
             requests w' = requests w3 -> url = archive_url) as Hsame_url.
  { intros w3 H3 H'. rewrite H', H3, Hreq2 in Hreq. simpl in Hreq.
    rewrite <- app_assoc in Hreq. apply app_inv_head in Hreq.
    simpl in Hreq. congruence. }
  destruct (session archive_url) as [archive|] eqn:Harchive.
  - set (w3 := mkWorld (requests w2 ++ [archive_url]) (log w2) (dirs w2) (files w2)) in *.
    destruct (write_bytes (path_div downloads_dir (last_segment "/" archive_url))
                (content archive) w3) as [[[]|e] w4] eqn:Hwrite;
      apply write_bytes_frame in Hwrite as (Hreq4 & Hdirs4 & _).
    + unfold logging_info, ret in Hrun. injection Hrun as <- <-. simpl in *.
      assert (url = archive_url) as -> by (apply (Hsame_url w3); [reflexivity|exact Hreq4]).
      split; [eauto|]. split; [|split].
      * rewrite (is_dir_dirs w2 _ downloads_dir); [exact Hdir|exact Hdirs4].
      * intros Hno. rewrite Hdirs4. exact (Hnew Hno).
      * intros Hnone. congruence.
    + injection Hrun as <- <-.
      assert (url = archive_url) as -> by (apply (Hsame_url w3); [reflexivity|exact Hreq4]).
      split; [eauto|]. split; [|split].
      * rewrite (is_dir_dirs w2 _ downloads_dir); [exact Hdir|exact Hdirs4].
      * intros Hno. rewrite Hdirs4. exact (Hnew Hno).
      * intros Hnone. congruence.
  - unfold ret in Hrun. injection Hrun as <- <-.
    assert (url = archive_url) as ->.
    { apply (Hsame_url (mkWorld (requests w2 ++ [archive_url])
                          (log w2 ++ [LogException archive_url]) (dirs w2) (files w2)));
        reflexivity. }
    split; [eauto|]. split; [|split].
    + rewrite (is_dir_dirs w2 _ downloads_dir); [exact Hdir|reflexivity].
    + intros Hno. exact (Hnew Hno).
    + intros _. split; [reflexivity|exact Hfiles].
Qed.


(* ================================================================== *)
(** * Further properties *)
(* ================================================================== *)

(** ** What the loops do to the world *)

Lemma get_response_run session url w :
  get_response session url w = (Ok (session url), fetched session url w).
Proof.
  unused. unfold get_response, fetched.
  destruct (session url); [rewrite app_nil_r|]; reflexivity.
Qed.


(** A crawling loop that ends normally asked for the page of every item,
    in the order of the items, and logged the pages it did not get. *)
Lemma crawl_trace {X : Type} link_of (extract : string -> Response -> result X)
    session items : forall acc w res w',
  for_each items (fetch_step link_of extract session) acc w = (Ok res, w') ->
  exists links,
    Forall2 (fun item link => link_of item = Ok link) items links
    /\ w' = mkWorld (requests w ++ links)
                    (log w ++ map LogException (unanswered session links))
                    (dirs w) (files w).
Proof.
  unused.
  induction items as [|item items IH]; intros acc w res w' Hrun; simpl in Hrun.
  - unfold ret in Hrun. injection Hrun as _ <-. exists []. split; [constructor|].
    simpl. rewrite !app_nil_r. destruct w; reflexivity.
  - unfold bind, fetch_step at 1, bind, lift in Hrun.
    destruct (link_of item) as [link|e] eqn:Hlink; [|discriminate].
    rewrite get_response_run in Hrun.
    assert (exists acc', for_each items (fetch_step link_of extract session) acc'
                           (fetched session link w) = (Ok res, w')) as [acc' Hrest].
    { destruct (session link) as [response|].
      - destruct (extract link response) as [x|e]; [|discriminate].
        unfold ret in Hrun. eauto.
      - unfold ret in Hrun. eauto. }
    apply IH in Hrest as (links & Hlinks & ->).
    exists (link :: links). split; [constructor; assumption|].
    unfold fetched. simpl. rewrite <- !app_assoc. simpl.
    destruct (session link); reflexivity.
Qed.

(** What [crawl] keeps: one value for each item whose page was got. *)
Lemma crawl_kept_length {X : Type} link_of (extract : string -> Response -> result X)
    session items : forall links,
  Forall2 (fun item link => link_of item = Ok link) items links ->
  Forall (fun item => passes (visit link_of extract session item)) items ->
  List.length (flat_map (fun item => kept (visit link_of extract session item)) items)
  + List.length (unanswered session links)
  = List.length items.
Proof.
  unused.
  induction items as [|item items IH]; intros links Hlinks Hall;
    inversion Hlinks as [|? link ? links' Hlink Hrest]; subst; [reflexivity|].
  cbn [flat_map].
  inversion Hall as [|? ? [o Ho] Hall']; subst.
  specialize (IH links' Hrest Hall').
  rewrite length_app.
  assert (List.length (kept (visit link_of extract session item))
          + List.length (unanswered session [link]) = 1) as Hone.
  { unfold visit, rbind in Ho |- *. rewrite Hlink in Ho |- *. simpl.
    destruct (session link) as [response|]; [|reflexivity].
    destruct (extract link response) as [x|e]; [reflexivity|discriminate]. }
  change (link :: links') with ([link] ++ links').
  unfold unanswered in *. rewrite filter_app, length_app.
  change (List.length (item :: items)) with (S (List.length items)). lia.
Qed.

(** ** The handlers case by case *)

Lemma whats_new_cases session w :
  whats_new session w =
  match session whats_new_url with
  | None => (Ok None, fetched session whats_new_url w)
  | Some response =>
      match sections_by_python_of response with
      | Raise e => (Raise e, fetched session whats_new_url w)
      | Ok sections =>
          match for_each sections (fetch_step version_link_of article_row session)
                         [whats_new_header] (fetched session whats_new_url w) with
          | (Ok result, w') => (Ok (Some result), w')
          | (Raise e, w') => (Raise e, w')
          end
      end
  end.
Proof.
  unfold whats_new, bind. rewrite get_response_run.
  destruct (session whats_new_url) as [response|]; [|reflexivity].
  unfold lift. destruct (sections_by_python_of response) as [sections|e]; [|reflexivity].
  rewrite whats_new_step_shape.
  destruct (for_each sections (fetch_step version_link_of article_row session)
              [whats_new_header] (fetched session whats_new_url w)) as [[result|e] w'];
    reflexivity.
Qed.

Lemma pep_cases session w :
  pep session w =
  match session PEP_URL with
  | None => (Ok None, fetched session PEP_URL w)
  | Some response =>
      match table_tag_of response with
      | Raise e => (Raise e, fetched session PEP_URL w)
      | Ok table_tag =>
          match for_each table_tag
                         (fetch_step pep_card_url_of (fun _ => status_of_card) session)
                         [] (fetched session PEP_URL w) with
          | (Ok statuses, w') =>
              (Ok (Some (pep_header :: status_rows statuses
                           ++ [total_row (sum_counts (accepted (Counter statuses)))])),
               mkWorld (requests w')
                       (log w' ++ map (fun item => LogInfo (status_mismatch (fst item)))
                                      (rejected (Counter statuses)))
                       (dirs w') (files w'))
          | (Raise e, w') => (Raise e, w')
          end
      end
  end.
Proof.
  unfold pep, bind. rewrite get_response_run.
  destruct (session PEP_URL) as [response|]; [|reflexivity].
  unfold lift. destruct (table_tag_of response) as [table_tag|e]; [|reflexivity].
  rewrite pep_step_shape.
  destruct (for_each table_tag
              (fetch_step pep_card_url_of (fun _ => status_of_card) session)
              [] (fetched session PEP_URL w)) as [[statuses|e] w']; [|reflexivity].
  rewrite pep_table_run. reflexivity.
Qed.

(** The loop of [latest_versions] is [rows_of_links]; it leaves the world
    as it is. *)
Lemma latest_versions_loop_run a_tags : forall acc w,
  for_each a_tags latest_versions_step acc w =
  (match rows_of_links a_tags with
   | Ok rows => Ok (acc ++ rows)
   | Raise e => Raise e
   end, w).
Proof.
  unused.
  induction a_tags as [|a a_tags IH]; intros acc w; simpl.
  - rewrite app_nil_r. reflexivity.
  - unfold bind, latest_versions_step at 1, lift. unfold bind.
    destruct (version_row a) as [row|e]; [|reflexivity].
    unfold ret. rewrite IH.
    destruct (rows_of_links a_tags) as [rows|e]; [|reflexivity].
    rewrite <- app_assoc. reflexivity.
Qed.

Lemma latest_versions_cases session w :
  latest_versions session w =
  (match session MAIN_DOC_URL with
   | None => Ok None
   | Some response =>
       match ul_tags_of response with
       | Raise e => Raise e
       | Ok ul_tags =>
           match all_versions_links ul_tags with
           | Raise e => Raise e
           | Ok a_tags =>
               match rows_of_links a_tags with
               | Ok rows => Ok (Some (latest_versions_header :: rows))
               | Raise e => Raise e
               end
           end
       end
   end, fetched session MAIN_DOC_URL w).
Proof.
  unfold latest_versions, bind. rewrite get_response_run.
  destruct (session MAIN_DOC_URL) as [response|]; [|reflexivity].
  unfold lift. destruct (ul_tags_of response) as [ul_tags|e]; [|reflexivity].
  destruct (all_versions_links ul_tags) as [a_tags|e]; [|reflexivity].
  rewrite latest_versions_loop_run.
  destruct (rows_of_links a_tags) as [rows|e]; reflexivity.
Qed.

(** ** The disk and the world of the three scraping handlers *)


(** What [whats_new], [latest_versions] and [pep] return or raise depends
    on the session alone: not on the requests made before, on the log or
    on the disk they start with. *)
Theorem scraping_reads_the_session_only session w1 w2 :
  fst (whats_new session w1) = fst (whats_new session w2)
  /\ fst (latest_versions session w1) = fst (latest_versions session w2)
  /\ fst (pep session w1) = fst (pep session w2).
Proof.
  split; [|split].
  - rewrite !whats_new_cases.
    destruct (session whats_new_url) as [response|]; [|reflexivity].
    destruct (sections_by_python_of response) as [sections|e]; [|reflexivity].
    pose proof (crawl_result version_link_of article_row session sections
                  [whats_new_header] (fetched session whats_new_url w1)) as H1.
    pose proof (crawl_result version_link_of article_row session sections
                  [whats_new_header] (fetched session whats_new_url w2)) as H2.
    destruct (for_each sections _ _ (fetched session whats_new_url w1)) as [[r1|e1] w1'];
      destruct (for_each sections _ _ (fetched session whats_new_url w2)) as [[r2|e2] w2'];
      simpl in *; congruence.
  - rewrite !latest_versions_cases. reflexivity.
  - rewrite !pep_cases.
    destruct (session PEP_URL) as [response|]; [|reflexivity].
    destruct (table_tag_of response) as [table_tag|e]; [|reflexivity].
    pose proof (crawl_result pep_card_url_of (fun _ => status_of_card) session table_tag
                  [] (fetched session PEP_URL w1)) as H1.
    pose proof (crawl_result pep_card_url_of (fun _ => status_of_card) session table_tag
                  [] (fetched session PEP_URL w2)) as H2.
    destruct (for_each table_tag _ _ (fetched session PEP_URL w1)) as [[r1|e1] w1'];
      destruct (for_each table_tag _ _ (fetched session PEP_URL w2)) as [[r2|e2] w2'];
      simpl in *; congruence.
Qed.

(** ** Requests, log and counts of the two crawling handlers *)

(** When [whats_new] returns a table it has asked for the overview and
    then for the article of every section, once each and in the order of
    the sections, whether or not the article came; it has logged the
    articles that did not come; and the table has the header and one row
    for each article that came. *)
Theorem whats_new_one_request_per_section session w table w' :
  whats_new session w = (Ok (Some table), w') ->
  exists response sections links,
    session whats_new_url = Some response
    /\ sections_by_python_of response = Ok sections
    /\ Forall2 (fun section link => version_link_of section = Ok link) sections links
    /\ requests w' = requests w ++ whats_new_url :: links
    /\ log w' = log w ++ map LogException (unanswered session links)
    /\ List.length table + List.length (unanswered session links)
       = 1 + List.length sections.
Proof.
  rewrite whats_new_cases. intros Hrun.
  destruct (session whats_new_url) as [response|] eqn:Hresp; [|discriminate].
  destruct (sections_by_python_of response) as [sections|e] eqn:Hsec; [|discriminate].
  destruct (for_each sections (fetch_step version_link_of article_row session)
              [whats_new_header] (fetched session whats_new_url w))
    as [[result|e] w1] eqn:Hloop; [|discriminate].
  injection Hrun as <- <-.
  destruct (crawl_trace _ _ _ _ _ _ _ _ Hloop) as (links & Hlinks & ->).
  apply crawl_returns in Hloop as [Hall ->].
  exists response, sections, links. repeat split; auto.
  - simpl. rewrite <- app_assoc. reflexivity.
  - simpl. rewrite Hresp, app_nil_r. reflexivity.
  - simpl. f_equal.
    apply (crawl_kept_length version_link_of article_row session sections links Hlinks Hall).
Qed.



(** ** The order and the numbers of the rows of [pep] *)







(** ** What the handlers can raise *)

Lemma find_tag_raises soup tag attrs e :
  find_tag soup tag attrs = Raise e -> e = ParserFindTagException tag attrs.
Proof.
  unused. unfold find_tag. destruct (Bs4.find soup tag attrs); [discriminate|].
  intros [= <-]. reflexivity.
Qed.

Lemma getitem_raises t key e : getitem t key = Raise e -> e = KeyError key.
Proof.
  unused. unfold getitem. destruct (Bs4.attr t key); [discriminate|].
  intros [= <-]. reflexivity.
Qed.

(** The two groups of the pattern are always there to unpack: the row of
    a link fails for want of an address only. *)
Lemma version_row_raises a_tag e :
  version_row a_tag = Raise e -> e = KeyError "href".
Proof.
  unused. unfold version_row, rbind.
  destruct (getitem a_tag "href") as [link|e0] eqn:Hlink.
  - pose proof (search_version_pattern (Bs4.text a_tag)) as Hsearch.
    destruct (Re.search version_pattern (Bs4.text a_tag)) as [groups|]; [|discriminate].
    destruct Hsearch as (version & status & -> & _). discriminate.
  - intros [= <-]. apply getitem_raises in Hlink. exact Hlink.
Qed.

Lemma rows_of_links_raises a_tags e :
  rows_of_links a_tags = Raise e -> e = KeyError "href".
Proof.
  unused. induction a_tags as [|a a_tags IH]; simpl; [discriminate|].
  destruct (version_row a) as [row|e0] eqn:Hrow.
  - destruct (rows_of_links a_tags) as [rows|e1]; [discriminate|].
    intros [= <-]. apply IH. reflexivity.
  - intros [= <-]. apply version_row_raises in Hrow. exact Hrow.
Qed.

Lemma all_versions_links_raises ul_tags e :
  all_versions_links ul_tags = Raise e -> e = Exception "Ничего не нашлось".
Proof.
  unused. induction ul_tags as [|ul ul_tags IH]; simpl.
  - intros [= <-]. reflexivity.
  - destruct (contains "All versions" (Bs4.text ul)); [discriminate|exact IH].
Qed.

(** Whatever the main page holds, [latest_versions] issues one request,
    logs only its failure, and ends in one of five ways: with nothing
    when the page did not come, with a table that starts with the header,
    or with one of three exceptions: the sidebar is not found, no list
    mentions "All versions", a link of the list has no address. *)
Theorem latest_versions_outcomes session w :
  snd (latest_versions session w) = fetched session MAIN_DOC_URL w
  /\ match fst (latest_versions session w) with
     | Ok None => session MAIN_DOC_URL = None
     | Ok (Some table) =>
         session MAIN_DOC_URL <> None
         /\ exists rows, table = latest_versions_header :: rows
     | Raise e =>
         session MAIN_DOC_URL <> None
         /\ (e = ParserFindTagException "div" [("class", MStr "sphinxsidebarwrapper")]
             \/ e = Exception "Ничего не нашлось"
             \/ e = KeyError "href")
     end.
Proof.
  rewrite latest_versions_cases. split; [reflexivity|]. cbn [fst].
  destruct (session MAIN_DOC_URL) as [response|]; [|reflexivity].
  destruct (ul_tags_of response) as [ul_tags|e] eqn:Hul.
  - destruct (all_versions_links ul_tags) as [a_tags|e] eqn:Ha.
    + destruct (rows_of_links a_tags) as [rows|e] eqn:Hrows.
      * split; [discriminate|eauto].
      * split; [discriminate|]. apply rows_of_links_raises in Hrows. auto.
    + split; [discriminate|]. apply all_versions_links_raises in Ha. auto.
  - split; [discriminate|]. left.
    unfold ul_tags_of, rbind in Hul.
    destruct (find_tag _ "div" _) eqn:Hdiv; [discriminate|].
    injection Hul as <-. apply find_tag_raises in Hdiv. exact Hdiv.
Qed.




(** ** The other two patterns *)










(** ** [download] and the disk *)

Lemma download_cases session w :
  download session w =
  match session downloads_url with
  | None => (Ok None, fetched session downloads_url w)
  | Some page =>
      match archive_url_of page with
      | Raise e => (Raise e, fetched session downloads_url w)
      | Ok archive_url =>
          match mkdir_exist_ok downloads_dir (fetched session downloads_url w) with
          | (Raise e, w2) => (Raise e, w2)
          | (Ok _, w2) =>
              match session archive_url with
              | None => (Ok None, fetched session archive_url w2)
              | Some archive =>
                  match write_bytes
                          (path_div downloads_dir (last_segment "/" archive_url))
                          (content archive) (fetched session archive_url w2) with
                  | (Raise e, w4) => (Raise e, w4)
                  | (Ok _, w4) =>
                      (Ok None,
                       mkWorld (requests w4)
                               (log w4 ++ [LogInfo (archive_saved
                                                      (path_div downloads_dir
                                                         (last_segment "/" archive_url)))])
                               (dirs w4) (files w4))
                  end
              end
          end
      end
  end.
Proof.
  unfold download, bind. rewrite get_response_run.
  destruct (session downloads_url) as [page|]; [|reflexivity].
  unfold lift. destruct (archive_url_of page) as [archive_url|e]; [|reflexivity].
  destruct (mkdir_exist_ok downloads_dir (fetched session downloads_url w))
    as [[[]|e] w2]; [|reflexivity].
  rewrite get_response_run.
  destruct (session archive_url) as [archive|]; [|reflexivity].
  destruct (write_bytes _ _ _) as [[[]|e] w4]; reflexivity.
Qed.

Lemma mkdir_exist_ok_frame p w r w1 :
  mkdir_exist_ok p w = (r, w1) ->
  requests w1 = requests w /\ log w1 = log w /\ files w1 = files w
  /\ (dirs w1 = dirs w
      \/ (r = Ok tt /\ is_dir w p = false /\ dirs w1 = p :: dirs w)).
Proof.
  unused. unfold mkdir_exist_ok.
  destruct (is_dir w p) eqn:Hd; [intros [= <- <-]; auto|].
  destruct (is_file w p); [intros [= <- <-]; auto|].
  destruct (is_dir w (removelast p)); [intros [= <- <-]; simpl; auto 7|].
  destruct (is_file w (removelast p)); intros [= <- <-]; auto.
Qed.

Lemma mkdir_exist_ok_again p w :
  is_dir w p = true -> mkdir_exist_ok p w = (Ok tt, w).
Proof. unused. intros H. unfold mkdir_exist_ok. rewrite H. reflexivity. Qed.

Lemma write_bytes_cases p data w r w1 :
  write_bytes p data w = (r, w1) ->
  (r = Ok tt
   /\ is_dir w p = false /\ is_dir w (removelast p) = true
   /\ w1 = mkWorld (requests w) (log w) (dirs w)
                   ((p, data) :: filter (fun f => negb (path_eqb p (fst f))) (files w)))
  \/ ((exists e, r = Raise e) /\ w1 = w).
Proof.
  unused. unfold write_bytes.
  destruct (is_dir w p); [intros [= <- <-]; right; eauto|].
  destruct (is_dir w (removelast p)); [intros [= <- <-]; left; auto|].
  destruct (is_file w (removelast p)); intros [= <- <-]; right; eauto.
Qed.



Lemma filter_twice {A : Type} (f : A -> bool) l : filter f (filter f l) = filter f l.
Proof.
  unused. induction l as [|x l IH]; simpl; [reflexivity|].
  destruct (f x) eqn:Hfx; simpl; [rewrite Hfx, IH|]; auto.
Qed.


(** A run of [download] adds to the disk no directory but the downloads
    directory, and adds that one only after it has found the address of
    the archive on the downloads page. *)
Theorem download_makes_the_downloads_directory_only session w :
  dirs (snd (download session w)) = dirs w
  \/ (is_dir w downloads_dir = false
      /\ dirs (snd (download session w)) = downloads_dir :: dirs w
      /\ exists page archive_url,
           session downloads_url = Some page
           /\ archive_url_of page = Ok archive_url).
Proof.
  rewrite download_cases.
  destruct (session downloads_url) as [page|] eqn:Hpage; [|auto].
  destruct (archive_url_of page) as [archive_url|e] eqn:Hurl; [|auto].
  destruct (mkdir_exist_ok downloads_dir (fetched session downloads_url w))
    as [r2 w2] eqn:Hmk.
  apply mkdir_exist_ok_frame in Hmk as (_ & _ & _ & Hdirs).
  assert (dirs w2 = dirs w
          \/ (is_dir w downloads_dir = false /\ dirs w2 = downloads_dir :: dirs w)) as Hd.
  { destruct Hdirs as [Hsame|(_ & Hno & Hadd)]; [left; exact Hsame|right].
    split; [|exact Hadd]. rewrite <- Hno. symmetry. apply is_dir_dirs. reflexivity. }
  assert (forall w' : World, dirs w' = dirs w2 ->
            dirs w' = dirs w
            \/ (is_dir w downloads_dir = false
                /\ dirs w' = downloads_dir :: dirs w
                /\ exists page0 archive_url0,
                     Some page = Some page0 /\ archive_url_of page0 = Ok archive_url0))
    as Hgoal.
  { intros w' Hw'. destruct Hd as [Hsame|[Hno Hadd]]; [left; congruence|right].
    split; [exact Hno|]. split; [congruence|]. eauto. }
  destruct r2 as [[]|e]; [|apply Hgoal; reflexivity].
  destruct (session archive_url) as [archive|]; [|apply Hgoal; reflexivity].
  destruct (write_bytes _ _ _) as [r4 w4] eqn:Hwrite.
  apply write_bytes_cases in Hwrite as [(-> & _ & _ & ->)|[[e ->] ->]];
    apply Hgoal; reflexivity.
Qed.

(** A run of [download] that returned can be run again: on the disk it
    left, the second run returns as well and leaves the directories and
    the files as the first left them. *)
Theorem download_again_changes_nothing session w r w1 :
  download session w = (Ok r, w1) ->
  exists w2,
    download session w1 = (Ok r, w2)
    /\ dirs w2 = dirs w1
    /\ files w2 = files w1.
Proof.
  rewrite (download_cases session w), (download_cases session w1).
  destruct (session downloads_url) as [page|] eqn:Hpage.
  2:{ intros [= <- <-]. eauto. }
  destruct (archive_url_of page) as [archive_url|e] eqn:Hurl; [|discriminate].
  destruct (mkdir_exist_ok downloads_dir (fetched session downloads_url w))
    as [[[]|e] w2] eqn:Hmk; [|discriminate].
  apply mkdir_exist_ok_returns in Hmk as (Hdir & _).
  destruct (session archive_url) as [archive|] eqn:Harchive.
  - destruct (write_bytes _ _ (fetched session archive_url w2)) as [r4 w4] eqn:Hwrite.
    apply write_bytes_cases in Hwrite as [(-> & Hfree & Hparent & ->)|[[e ->] ->]];
      [|discriminate].
    intros [= <- <-].
    rewrite mkdir_exist_ok_again by exact Hdir.
    unfold write_bytes.
    match goal with |- context [is_dir ?wa (path_div _ _)] =>
      replace (is_dir wa (path_div downloads_dir (last_segment "/" archive_url)))
        with false by (symmetry; exact Hfree);
      replace (is_dir wa (removelast (path_div downloads_dir (last_segment "/" archive_url))))
        with true by (symmetry; exact Hparent)
    end.
    eexists. split; [reflexivity|]. split; [reflexivity|].
    cbn [files fetched]. cbn [filter fst]. rewrite path_eqb_refl. cbn [negb].
    rewrite filter_twice. reflexivity.
  - intros [= <- <-].
    rewrite mkdir_exist_ok_again by exact Hdir. eauto.
Qed.

(** ** More on [whats_new] and [latest_versions] *)

Lemma whats_new_returns session w table w' :
  whats_new session w = (Ok (Some table), w') ->
  exists response sections,
    session whats_new_url = Some response
    /\ sections_by_python_of response = Ok sections
    /\ Forall (fun section => passes (article_of session section)) sections
    /\ table = whats_new_header :: articles session sections.
Proof.
  rewrite whats_new_cases. intros Hrun.
  destruct (session whats_new_url) as [response|] eqn:Hresp; [|discriminate].
  destruct (sections_by_python_of response) as [sections|e] eqn:Hsec; [|discriminate].
  destruct (for_each sections (fetch_step version_link_of article_row session)
              [whats_new_header] (fetched session whats_new_url w))
    as [[result|e] w1] eqn:Hloop; [|discriminate].
  injection Hrun as <- <-. apply crawl_returns in Hloop as [Hall ->].
  exists response, sections. repeat split; assumption.
Qed.

Lemma replace_char_free old new s :
  new <> old -> free_of old (replace_char old new s) = true.
Proof.
  unused. intros Hne. unfold free_of.
  induction s as [|c s IH]; simpl; [reflexivity|].
  rewrite IH, andb_true_r.
  destruct (Ascii.eqb_spec c old) as [->|Hc]; apply negb_true_iff, Ascii.eqb_neq; assumption.
Qed.

Lemma replace_char_length old new s :
  String.length (replace_char old new s) = String.length s.
Proof.
  unused. induction s as [|c s IH]; simpl; [reflexivity|]. rewrite IH. reflexivity.
Qed.

(** In every table [whats_new] returns the third field of a row holds no
    line feed, and the first field of a row below the header is the
    address the article was fetched from. *)
Theorem whats_new_third_field_on_one_line session w table w' :
  whats_new session w = (Ok (Some table), w') ->
  Forall (fun row : Row => free_of LF (snd row) = true) table
  /\ Forall (fun row : Row => session (fst (fst row)) <> None) (tl table).
Proof.
  intros Hrun.
  apply whats_new_returns in Hrun as (response & sections & _ & _ & _ & ->).
  assert (Forall (fun row : Row => free_of LF (snd row) = true
                                   /\ session (fst (fst row)) <> None)
                 (articles session sections)) as Hrows.
  { unfold articles. apply Forall_forall. intros row Hin.
    apply in_flat_map in Hin as (section & _ & Hin).
    unfold article_of, visit, rbind in Hin.
    destruct (version_link_of section) as [link|e]; [|contradiction].
    destruct (session link) as [article|] eqn:Hfetch; [|contradiction].
    unfold article_row, rbind in Hin.
    destruct (find_tag _ "h1" _) as [h1|e]; [|contradiction].
    destruct (find_tag _ "dl" _) as [dl|e]; [|contradiction].
    destruct Hin as [<-|[]]. simpl. split.
    - apply replace_char_free. discriminate.
    - congruence. }
  split.
  - constructor; [reflexivity|].
    eapply Forall_impl; [|exact Hrows]. intros row [H _]. exact H.
  - simpl. eapply Forall_impl; [|exact Hrows]. intros row [_ H]. exact H.
Qed.


(** ** The name of the archive *)

Lemma free_of_snoc sep (acc : string) c :
  free_of sep acc = true -> Ascii.eqb c sep = false ->
  free_of sep (acc ++ String c EmptyString) = true.
Proof.
  unused. unfold free_of. induction acc as [|x acc IH]; simpl; intros Hacc Hc.
  - rewrite Hc. reflexivity.
  - apply andb_prop in Hacc as [Hx Hacc]. rewrite Hx. simpl. apply IH; assumption.
Qed.

Lemma last_segment_from_spec sep s : forall acc,
  free_of sep acc = true ->
  free_of sep (last_segment_from sep acc s) = true
  /\ ((acc ++ s)%string = last_segment_from sep acc s
      \/ exists pre,
           (acc ++ s)%string
           = (pre ++ String sep (last_segment_from sep acc s))%string).
Proof.
  unused. induction s as [|c s IH]; intros acc Hacc; simpl.
  - split; [exact Hacc|]. left.
    clear. induction acc as [|x acc IHa]; simpl; [reflexivity|]. rewrite IHa. reflexivity.
  - destruct (Ascii.eqb_spec c sep) as [->|Hne].
    + destruct (IH EmptyString eq_refl) as [Hfree Hshape]. split; [exact Hfree|].
      right. simpl in Hshape.
      remember (last_segment_from sep EmptyString s) as segment eqn:Hsegment.
      clear Hsegment IH. destruct Hshape as [Hs|[pre Hs]].
      * exists acc. rewrite <- Hs. reflexivity.
      * exists (acc ++ String sep pre)%string. rewrite Hs.
        clear. induction acc as [|x acc IHa]; simpl; [reflexivity|].
        rewrite IHa. reflexivity.
    + assert (Ascii.eqb c sep = false) as Hc by (apply Ascii.eqb_neq; assumption).
      destruct (IH (acc ++ String c EmptyString)%string (free_of_snoc sep acc c Hacc Hc))
        as [Hfree Hshape].
      split; [exact Hfree|]. rewrite append_snoc in Hshape. exact Hshape.
Qed.

(** The name [download] gives the archive, the last segment of its
    address, holds no slash, and the address ends with it: it is the
    whole address, or what follows a slash of it. *)
Theorem archive_name_holds_no_slash (archive_url : string) :
  free_of "/" (last_segment "/" archive_url) = true
  /\ (archive_url = last_segment "/" archive_url
      \/ exists pre,
           archive_url = (pre ++ "/" ++ last_segment "/" archive_url)%string).
Proof.
  unused. unfold last_segment.
  destruct (last_segment_from_spec "/" archive_url EmptyString eq_refl) as [Hfree Hshape].
  split; [exact Hfree|]. simpl in Hshape. exact Hshape.
Qed.

(** ** [main] *)

Lemma download_returns_nothing session w r :
  fst (download session w) = Ok r -> r = None.
Proof.
  rewrite download_cases.
  destruct (session downloads_url) as [page|]; [|simpl; congruence].
  destruct (archive_url_of page) as [archive_url|e]; [|discriminate].
  destruct (mkdir_exist_ok downloads_dir _) as [[[]|e] w2]; [|discriminate].
  destruct (session archive_url) as [archive|]; [|simpl; congruence].
  destruct (write_bytes _ _ _) as [[[]|e] w4]; [|discriminate].
  simpl. congruence.
Qed.

End Handlers.

(* ================================================================== *)
(** * The statements at work on the sample sites *)
(* ================================================================== *)



(** No card answers: the header and a total of nought; and the table of
    the three cards starts with the header and ends with the total. *)
Lemma pep_header_first_total_last_witness :
  (exists rows total,
     [("Status", VStr "Quantity"); ("Active", VInt 1); ("Final", VInt 2);
      ("Total", VInt 3)]
     = ("Status", VStr "Quantity") :: rows ++ [("Total", VInt total)])
  /\ exists w',
       pep Example.PEP_URL Example.EXPECTED_STATUS Example.urljoin
           (Example.parse Example.pep_pages) Example.pep_session_no_card Example.fresh
       = (Ok (Some [("Status", VStr "Quantity"); ("Total", VInt 0)]), w').
Proof.
  split.
  - destruct (pep_header_first_total_last
                Example.PEP_URL Example.EXPECTED_STATUS Example.urljoin
                (Example.parse Example.pep_pages) Example.pep_session Example.fresh)
      as [Hshape _].
    eapply Hshape. vm_compute. reflexivity.
  - destruct (pep_header_first_total_last
                Example.PEP_URL Example.EXPECTED_STATUS Example.urljoin
                (Example.parse Example.pep_pages) Example.pep_session_no_card
                Example.fresh)
      as [_ Hempty].
    eapply Hempty.
    + vm_compute. reflexivity.
    + vm_compute. reflexivity.
    + intros tag [<-|[<-|[<-|[]]]]; eexists; split; vm_compute; reflexivity.
Defined.




(** The article on 3.11 cannot be fetched: the table has the rows of 3.12
    and 3.10, in that order, and nothing for 3.11. *)
Lemma whats_new_skips_failed_fetch_witness :
  exists w',
    whats_new Example.MAIN_DOC_URL Example.urljoin
              (Example.parse Example.whats_new_pages) Example.whats_new_session
              Example.fresh
    = (Ok (Some [("Ссылка на статью", "Заголовок", "Редактор, Автор");
                 ("https://docs.python.org/3/whatsnew/3.12.html",
                  "What's New In Python 3.12", "Editor Adam Turner");
                 ("https://docs.python.org/3/whatsnew/3.10.html",
                  "What's New In Python 3.10", "Editor Pablo Galindo Salgado")]),
       w').
Proof.
  destruct (sections_by_python_of
              (Example.parse Example.whats_new_pages)
              (mkResponse "<section id='what-s-new-in-python'>3.12 3.11 3.10</section>" []))
    as [[|s312 [|s311 [|s310 [|]]]]|] eqn:Hsections;
    try (vm_compute in Hsections; discriminate).
  destruct (whats_new_skips_failed_fetch
              Example.MAIN_DOC_URL Example.urljoin
              (Example.parse Example.whats_new_pages) Example.whats_new_session
              Example.fresh
              (mkResponse "<section id='what-s-new-in-python'>3.12 3.11 3.10</section>" [])
              [s312] s311 [s310] "https://docs.python.org/3/whatsnew/3.11.html")
    as (Hrun & _).
  - vm_compute. reflexivity.
  - exact Hsections.
  - vm_compute in Hsections. injection Hsections as <- <- <-. vm_compute. reflexivity.
  - vm_compute. reflexivity.
  - destruct Hrun as [w' Hrun].
    + vm_compute in Hsections. injection Hsections as <- <- <-.
      repeat constructor; eexists; vm_compute; reflexivity.
    + exists w'. rewrite Hrun.
      vm_compute in Hsections. injection Hsections as <- <- <-.
      vm_compute. reflexivity.
Defined.



(** The sample downloads page on a disk with the base directory: the
    archive is written under downloads, named after the last segment. *)
Lemma download_writes_archive_witness :
  exists w',
    download Example.MAIN_DOC_URL Example.BASE_DIR Example.urljoin
             (Example.parse Example.downloads_pages) Example.downloads_session
             Example.fresh
    = (Ok None, w')
    /\ read_file (files w')
                 ["srv"; "bs4_parser_pep"; "src"; "downloads"; "archive-3.12.pdf-a4.zip"]
       = Some Example.archive_bytes.
Proof.
  destruct (download_writes_archive
              Example.MAIN_DOC_URL Example.BASE_DIR Example.urljoin
              (Example.parse Example.downloads_pages) Example.downloads_session
              Example.fresh
              (mkResponse "<table class='docutils'>pdf-a4.zip</table>" [])
              "https://docs.python.org/3/archives/archive-3.12.pdf-a4.zip"
              (mkResponse EmptyString Example.archive_bytes))
    as (Hwritten & Hruns & _).
  - vm_compute. reflexivity.
  - vm_compute. reflexivity.
  - vm_compute. reflexivity.
  - destruct Hruns as [w' Hrun].
    + vm_compute. reflexivity.
    + vm_compute. reflexivity.
    + vm_compute. discriminate.
    + vm_compute. discriminate.
    + vm_compute. reflexivity.
    + exists w'. split; [exact Hrun|].
      destruct (Hwritten None w' Hrun) as (_ & Hfile & _). exact Hfile.
Defined.

(** The archive cannot be fetched: the downloads directory is there all
    the same, newly made, and no file is. *)
Lemma download_directory_made_before_fetch_witness :
  let run := download Example.MAIN_DOC_URL Example.BASE_DIR Example.urljoin
                      (Example.parse Example.downloads_pages)
                      Example.downloads_session_no_archive Example.fresh in
  is_dir (snd run) ["srv"; "bs4_parser_pep"; "src"; "downloads"] = true
  /\ dirs (snd run)
     = ["srv"; "bs4_parser_pep"; "src"; "downloads"] :: dirs Example.fresh
  /\ fst run = Ok None
  /\ files (snd run) = [].
Proof.
  intros run.
  destruct (download_directory_made_before_fetch
              Example.MAIN_DOC_URL Example.BASE_DIR Example.urljoin
              (Example.parse Example.downloads_pages)
              Example.downloads_session_no_archive Example.fresh
              (fst run) (snd run)
              "https://docs.python.org/3/archives/archive-3.12.pdf-a4.zip")
    as (_ & Hdir & Hnew & Hfail).
  - vm_compute. reflexivity.
  - vm_compute. reflexivity.
  - destruct (Hfail eq_refl) as [Hnone Hfiles].
    split; [exact Hdir|]. split; [exact (Hnew eq_refl)|].
    split; [exact Hnone|exact Hfiles].
Defined.


(* ================================================================== *)
(** * Further properties of [main] *)
(* ================================================================== *)

(** In mode download [main] never calls [control_output]: [download]
    returns None whenever it returns, so the run of [main], result and
    world, is the same whatever [control_output] does. *)
Theorem main_download_never_outputs
    (MAIN_DOC_URL PEP_URL : string) (BASE_DIR : path)
    (EXPECTED_STATUS : list (string * list string))
    (urljoin : string -> string -> string) (lxml : string -> Bs4.Node)
    (control_output control_output' : Results -> Args -> M unit)
    (args : Args) (session : Session) (w : World) :
  mode args = "download" ->
  main MAIN_DOC_URL PEP_URL BASE_DIR EXPECTED_STATUS urljoin lxml
       control_output args session w
  = main MAIN_DOC_URL PEP_URL BASE_DIR EXPECTED_STATUS urljoin lxml
         control_output' args session w.
Proof.
  intros Hmode. unfold main, bind, logging_info. rewrite Hmode. simpl.
  unfold as_results, bind.
  match goal with
  | |- context [download ?a ?b ?c ?d ?s ?x] =>
      pose proof (download_returns_nothing a b c d s x) as Hnone;
      destruct (download a b c d s x) as [[r|e] w1]
  end.
  - rewrite (Hnone r eq_refl). reflexivity.
  - reflexivity.
Qed.

(* ================================================================== *)
(** * The further properties at work on the sample sites *)
(* ================================================================== *)

(** The overview with three sections, the article on 3.11 not answering:
    four requests, one failure logged, three rows. *)
Lemma whats_new_one_request_per_section_witness :
  exists (sections : list Tag) links,
    requests (snd (whats_new Example.MAIN_DOC_URL Example.urljoin
                     (Example.parse Example.whats_new_pages)
                     Example.whats_new_session Example.fresh))
    = "https://docs.python.org/3/whatsnew/" :: links
    /\ List.length sections = 3
    /\ unanswered Example.whats_new_session links
       = ["https://docs.python.org/3/whatsnew/3.11.html"].
Proof.
  pose (run := whats_new Example.MAIN_DOC_URL Example.urljoin
                 (Example.parse Example.whats_new_pages)
                 Example.whats_new_session Example.fresh).
  destruct (whats_new_one_request_per_section
              Example.MAIN_DOC_URL Example.urljoin
              (Example.parse Example.whats_new_pages)
              Example.whats_new_session Example.fresh
              [("Ссылка на статью", "Заголовок", "Редактор, Автор");
               ("https://docs.python.org/3/whatsnew/3.12.html",
                "What's New In Python 3.12", "Editor Adam Turner");
               ("https://docs.python.org/3/whatsnew/3.10.html",
                "What's New In Python 3.10", "Editor Pablo Galindo Salgado")]
              (snd run))
    as (response & sections & links & Hresp & Hsections & _ & Hrequests & Hlog & _).
  - vm_compute. reflexivity.
  - exists sections, links. split; [exact Hrequests|].
    vm_compute in Hresp. injection Hresp as <-.
    vm_compute in Hsections. injection Hsections as <-.
    split; [reflexivity|].
    assert (log (snd run)
            = map LogException ["https://docs.python.org/3/whatsnew/3.11.html"])
      as Hfailed by (vm_compute; reflexivity).
    rewrite Hfailed in Hlog. change (log Example.fresh ++ ?l) with l in Hlog.
    assert (forall l l' : list string,
              map LogException l = map LogException l' -> l = l') as Hinj.
    { induction l as [|x l IH]; intros [|y l'] H; try discriminate; [reflexivity|].
      injection H as -> H. rewrite (IH l' H). reflexivity. }
    apply Hinj. symmetry. exact Hlog.
Defined.








(** The sample downloads page twice over: the second run leaves the
    disk of the first. *)
Lemma download_again_changes_nothing_witness :
  let w1 := snd (download Example.MAIN_DOC_URL Example.BASE_DIR Example.urljoin
                   (Example.parse Example.downloads_pages) Example.downloads_session
                   Example.fresh) in
  exists w2,
    download Example.MAIN_DOC_URL Example.BASE_DIR Example.urljoin
             (Example.parse Example.downloads_pages) Example.downloads_session w1
    = (Ok None, w2)
    /\ dirs w2 = dirs w1 /\ files w2 = files w1.
Proof.
  intros w1.
  apply (download_again_changes_nothing
           Example.MAIN_DOC_URL Example.BASE_DIR Example.urljoin
           (Example.parse Example.downloads_pages) Example.downloads_session
           Example.fresh None w1).
  vm_compute. reflexivity.
Defined.

(** The sample overview: no row has a line feed in its third field. *)
Lemma whats_new_third_field_on_one_line_witness :
  Forall (fun row : Row => free_of LF (snd row) = true)
    [("Ссылка на статью", "Заголовок", "Редактор, Автор");
     ("https://docs.python.org/3/whatsnew/3.12.html",
      "What's New In Python 3.12", "Editor Adam Turner");
     ("https://docs.python.org/3/whatsnew/3.10.html",
      "What's New In Python 3.10", "Editor Pablo Galindo Salgado")].
Proof.
  destruct (whats_new_third_field_on_one_line
              Example.MAIN_DOC_URL Example.urljoin
              (Example.parse Example.whats_new_pages) Example.whats_new_session
              Example.fresh
              [("Ссылка на статью", "Заголовок", "Редактор, Автор");
               ("https://docs.python.org/3/whatsnew/3.12.html",
                "What's New In Python 3.12", "Editor Adam Turner");
               ("https://docs.python.org/3/whatsnew/3.10.html",
                "What's New In Python 3.10", "Editor Pablo Galindo Salgado")]
              (snd (whats_new Example.MAIN_DOC_URL Example.urljoin
                      (Example.parse Example.whats_new_pages)
                      Example.whats_new_session Example.fresh)))
    as [Hlines _].
  - vm_compute. reflexivity.
  - exact Hlines.
Defined.

(** The sample downloads page: an output that raises and an output
    that does nothing give the same run. *)
Lemma main_download_never_outputs_witness :
  main Example.MAIN_DOC_URL Example.PEP_URL Example.BASE_DIR
       Example.EXPECTED_STATUS Example.urljoin
       (Example.parse Example.downloads_pages) (fun _ _ => raise ValueError)
       (mkArgs "download" false None "mode='download'")
       Example.downloads_session Example.fresh
  = main Example.MAIN_DOC_URL Example.PEP_URL Example.BASE_DIR
         Example.EXPECTED_STATUS Example.urljoin
         (Example.parse Example.downloads_pages) (fun _ _ => ret tt)
         (mkArgs "download" false None "mode='download'")
         Example.downloads_session Example.fresh.
Proof.
  apply (main_download_never_outputs
           Example.MAIN_DOC_URL Example.PEP_URL Example.BASE_DIR
           Example.EXPECTED_STATUS Example.urljoin
           (Example.parse Example.downloads_pages)
           (fun _ _ => raise ValueError) (fun _ _ => ret tt)
           (mkArgs "download" false None "mode='download'")
           Example.downloads_session Example.fresh).
  reflexivity.
Defined.
